(** * SourceKit result marshalling for type-context and conforming-method queries

    A shallow embedding of [tools/SourceKit/lib/SwiftLang/SwiftTypeContextInfo.cpp]
    and of [SwiftConformingMethodList.cpp] (the second half of the same source
    file): the two request entry points, their [Impl] helpers and the two
    [Consumer] classes that print an engine result into a [SmallString] arena,
    record (begin, length) pairs and hand [StringRef] views to the SourceKit
    consumer.

    Everything the file calls but does not define (type and declaration
    printers, Clang comment lookup, the compiler front end) is a field of the
    classes [AST] and [Frontend]. *)

From Stdlib Require Import ZArith Strings.Byte.
From stdpp Require Import base tactics option list gmap strings.
Local Open Scope Z_scope.

(** ** Machine integers

    [unsigned] is 32 bits wide and [size_t] 64 bits wide (LP64).  A value
    stored into a variable of either type is reduced modulo its range. *)

Definition unsigned_bits : Z := 32.
Definition size_t_bits : Z := 64.

Definition to_unsigned (z : Z) : Z := z mod 2 ^ unsigned_bits.
Definition to_size_t (z : Z) : Z := z mod 2 ^ size_t_bits.

(** ** Text, the arena and string views *)

(** [llvm::SmallString<512> SS] with [llvm::raw_svector_ostream OS(SS)]: every
    [print(OS)] appends the printed bytes at the end of [SS]. *)
Abbreviation Text := (list byte).
Abbreviation SmallString := (list byte).
Abbreviation Memory := (gmap nat (list byte)).

(** [SS.size()], a [size_t]. *)
Definition size (SS : SmallString) : Z := to_size_t (Z.of_nat (length SS)).

(** [OS << text]. *)
Definition write (SS : SmallString) (text : Text) : SmallString := SS ++ text.

(** [llvm::StringRef(SS.begin() + Begin, Length)]: a pointer into the buffer
    [Base] and a length; it owns no bytes. *)
Record StringRef := mkStringRef { Base : nat; Begin : Z; Length : Z }.

(** The bytes [Length] long at offset [Begin] of a buffer, when they lie
    inside it. *)
Definition substr (SS : SmallString) (Begin Length : Z) : option Text :=
  if bool_decide (0 ≤ Begin ∧ 0 ≤ Length ∧ Begin + Length ≤ Z.of_nat (length SS))
  then Some (take (Z.to_nat Length) (drop (Z.to_nat Begin) SS))
  else None.

(** Reading a view in a memory: [None] when its buffer is not alive there or
    the view leaves the buffer. *)
Definition str (m : Memory) (r : StringRef) : option Text :=
  SS ← m !! Base r; substr SS (Begin r) (Length r).

(** ** The engine's AST interface *)

Class AST := {
  Ty : Type;
  ValueDecl : Type;
  FuncDecl : Type;
  FunctionType : Type;
  DeclContext : Type;
  ModuleDecl : Type;
  ClangNode : Type;
  ClangDecl : Type;
  RawComment : Type;
  (** [Type::print(OS)] *)
  Type_print : Ty → Text;
  (** [SwiftLangSupport::printTypeUSR(Ty, OS)] *)
  printTypeUSR : Ty → Text;
  (** [member->getFullName().print(OS)] *)
  getFullName_print : ValueDecl → Text;
  (** [SwiftLangSupport::printMemberDeclDescription(member, Ty, usePlaceholder, OS)] *)
  printMemberDeclDescription : ValueDecl → Ty → bool → Text;
  getClangNode : ValueDecl → option ClangNode;
  getAsDecl : ClangNode → option ClangDecl;
  getRawCommentForAnyRedecl : ClangDecl → option RawComment;
  getBriefText : RawComment → Text;
  getBriefComment : ValueDecl → Text;
  (** [dyn_cast<FuncDecl>(member)]; [cast<FuncDecl>] asserts it is not null. *)
  dyn_cast_FuncDecl : ValueDecl → option FuncDecl;
  getMethodInterfaceType : FuncDecl → Ty;
  getParentModule : DeclContext → ModuleDecl;
  (** [BaseTy->getTypeOfMember(module, member, memberType)] *)
  getTypeOfMember : Ty → ModuleDecl → ValueDecl → Ty → Ty;
  (** [Ty->getAs<FunctionType>()]; [castTo<FunctionType>] asserts it is not null. *)
  getAs_FunctionType : Ty → option FunctionType;
  getResult : FunctionType → Ty
}.

(** The engine's results ([swift::ide]). *)
Module ide.
Section Results.
Context `{AST}.

Record TypeContextInfoItem := mkTypeContextInfoItem {
  ExpectedTy : Ty;
  ImplicitMembers : list ValueDecl
}.

Record ConformingMethodListResult := mkConformingMethodListResult {
  DC : DeclContext;
  ExprType : Ty;
  Members : list ValueDecl
}.

End Results.
End ide.

(** The results handed to the SourceKit consumers. *)
Module SourceKit.

Module TypeContextInfoItem.
Record Member := mkMember {
  Name : StringRef;
  Description : StringRef;
  SourceText : StringRef;
  DocBrief : Text
}.
Record t := mk {
  TypeName : StringRef;
  TypeUSR : StringRef;
  ImplicitMembers : list Member
}.
End TypeContextInfoItem.

Module ConformingMethodListResult.
Record Member := mkMember {
  Name : StringRef;
  TypeName : StringRef;
  TypeUSR : StringRef;
  Description : StringRef;
  SourceText : StringRef;
  DocBrief : Text
}.
Record t := mk {
  TypeName_ : StringRef;
  TypeUSR_ : StringRef;
  Members : list Member
}.
End ConformingMethodListResult.

End SourceKit.

(** ** The compiler front end used by the two [Impl] functions

    An offset into the input ([unsigned Offset] in the source) is a [Z] taken
    from 0 to 2^32 - 1. *)

Class Frontend `{AST} := {
  MemoryBuffer : Type;
  FileSystem : Type;
  VFSOptions : Type;
  CompilerInvocation : Type;
  CompilerInstance : Type;
  PersistentParserState : Type;
  getBufferIdentifier : MemoryBuffer → string;
  (** [getFileSystem(vfsOptions, None, error)]: the file system or null, and
      the contents of [error] afterwards. *)
  getFileSystem : option VFSOptions → string → option FileSystem * string;
  (** [FileSystem->getRealPath(path, out)]: [None] on an error code. *)
  getRealPath : FileSystem → string → option string;
  (** [ide::makeCodeCompletionMemoryBuffer(buf, Offset, id)]; [Offset] is
      passed by reference. *)
  makeCodeCompletionMemoryBuffer : MemoryBuffer → Z → string → MemoryBuffer * Z;
  (** [initCompilerInvocation(Invocation, Args, Diags, id, FileSystem, Error)]:
      the returned flag ([true] = failed), the invocation and [Error]. *)
  initCompilerInvocation :
    list string → string → FileSystem → string → bool * CompilerInvocation * string;
  (** [Invocation.getFrontendOptions().InputsAndOutputs.hasInputs()] *)
  hasInputs : CompilerInvocation → bool;
  (** [CompletionInst->getCompilerInstance(...)]: the instance or null, and
      [Error]. *)
  getCompilerInstance :
    CompilerInvocation → FileSystem → MemoryBuffer → Z → string →
    option CompilerInstance * string;
  hasPersistentParserState : CompilerInstance → bool;
  performParseAndResolveImportsOnly : CompilerInstance → CompilerInstance;
  getPersistentParserState : CompilerInstance → PersistentParserState;
  (** What [performCodeCompletionSecondPass] does with the callbacks made by
      [makeTypeContextInfoCallbacksFactory(Consumer)]: the arguments of its
      successive calls of [Consumer.handleResults], in order. *)
  typeContextInfoSecondPass :
    PersistentParserState → list (list ide.TypeContextInfoItem);
  (** The same for [makeConformingMethodListCallbacksFactory(ExpectedTypeNames,
      Consumer)]: the arguments of the successive calls of
      [Consumer.handleResult]. *)
  conformingMethodListSecondPass :
    list string → PersistentParserState → list ide.ConformingMethodListResult
}.

(** ** Observable behaviour: the calls a request makes

    A request is observed through the calls it makes on the engine and on the
    SourceKit consumer, in order.  A consumer call records the memory the
    consumer can read while it runs. *)

Section Machine.
Context `{Frontend}.

Inductive Event :=
| initCompilerInvocation_returned (Failed : bool) (Invocation : CompilerInvocation)
| getCompilerInstance_returned (CI : option CompilerInstance)
| performParseAndResolveImportsOnly_called (CI : CompilerInstance)
| performCodeCompletionSecondPass_called (State : PersistentParserState)
| removeDiagnosticConsumer_called
| TypeContextInfoConsumer_handleResult (m : Memory) (Info : SourceKit.TypeContextInfoItem.t)
| ConformingMethodListConsumer_handleResult (m : Memory) (SKResult : SourceKit.ConformingMethodListResult.t)
| Consumer_failed (ErrDescription : string).

(** The arenas alive and the calls made so far. *)
Record World := mkWorld { mem : Memory; trace : list Event }.

(** A computation either returns or stops the process at a failed
    [cast<>] assertion. *)
Inductive Res (A : Type) :=
| Ok (a : A) (w : World)
| Abort (w : World).
Global Arguments Ok {A} a w.
Global Arguments Abort {A} w.

Definition M (A : Type) : Type := World → Res A.

Definition world_of {A} (r : Res A) : World :=
  match r with Ok _ w => w | Abort w => w end.

Definition returned {A} (r : Res A) : bool :=
  match r with Ok _ _ => true | Abort _ => false end.

#[export] Instance M_ret : MRet M := λ A a w, Ok a w.
#[export] Instance M_bind : MBind M := λ A B f m w,
  match m w with Ok a w' => f a w' | Abort w' => Abort w' end.

Definition emit (e : Event) : M unit :=
  λ w, Ok tt (mkWorld (mem w) (trace w ++ [e])).

(** Entering the scope of a local [SmallString]: a buffer no live one shares. *)
Definition alloca : M nat :=
  λ w, let b := fresh (dom (mem w)) in Ok b (mkWorld (<[b := []]> (mem w)) (trace w)).

Definition store (b : nat) (SS : SmallString) : M unit :=
  λ w, Ok tt (mkWorld (<[b := SS]> (mem w)) (trace w)).

(** Leaving that scope. *)
Definition dealloc (b : nat) : M unit :=
  λ w, Ok tt (mkWorld (delete b (mem w)) (trace w)).

Definition get_mem : M Memory := λ w, Ok (mem w) w.

(** A failed assertion of [cast<>] or [castTo<>] (their null case, which
    the source does not handle). *)
Definition assertion_failed {A} : M A := λ w, Abort w.

(** [for (auto &x : l) body(x);] *)
Fixpoint for_each {A} (body : A → M unit) (l : list A) : M unit :=
  match l with
  | [] => mret tt
  | x :: l => body x;; for_each body l
  end.

(** The calls made on the consumer, among all calls. *)
Definition is_handleResult (e : Event) : bool :=
  match e with
  | TypeContextInfoConsumer_handleResult _ _
  | ConformingMethodListConsumer_handleResult _ _ => true
  | _ => false
  end.

Definition is_failed (e : Event) : bool :=
  match e with Consumer_failed _ => true | _ => false end.

Definition is_parse (e : Event) : bool :=
  match e with performParseAndResolveImportsOnly_called _ => true | _ => false end.

Definition is_secondPass (e : Event) : bool :=
  match e with performCodeCompletionSecondPass_called _ => true | _ => false end.

End Machine.

(** ** The brief documentation of a member

    The [// DocBrief.] block of both member loops; [BriefComment] starts as
    the empty [StringRef]. *)

Definition resolveDocBrief `{AST} (member : ValueDecl) : Text :=
  match getClangNode member with
  | Some MaybeClangNode =>
      match getAsDecl MaybeClangNode with
      | Some D =>
          match getRawCommentForAnyRedecl D with
          | Some RC => getBriefText RC
          | None => []
          end
      | None => []
      end
  | None => getBriefComment member
  end.

(** ** [SwiftLangSupport::getExpressionContextInfo] *)

Module TypeContext.
Import SourceKit.TypeContextInfoItem.

(** The local [struct MemberInfo] of [handleSingleResult]; all its offsets
    are [size_t]. *)
Record MemberInfo := mkMemberInfo {
  DeclNameBegin : Z;
  DeclNameLength : Z;
  DescriptionBegin : Z;
  DescriptionLength : Z;
  SourceTextBegin : Z;
  SourceTextLength : Z;
  BriefComment : Text
}.

(** What the first part of [handleSingleResult] leaves in its locals. *)
Record Locals := mkLocals {
  SS : SmallString;
  TypeNameBegin : Z;
  TypeNameLength : Z;
  TypeUSRBegin : Z;
  TypeUSRLength : Z;
  ImplicitMembers : list MemberInfo
}.

Section Consumer.
Context `{Frontend}.

(** The body of [for (auto member : Item.ImplicitMembers)]: the arena before
    and after, and the element put at the back of [ImplicitMembers]. *)
Definition handleSingleResult_member (ExpectedTy : Ty) (SS : SmallString)
    (member : ValueDecl) : SmallString * MemberInfo :=
  (* Name. *)
  let DeclNameBegin := size SS in
  let SS := write SS (getFullName_print member) in
  let DeclNameLength := to_size_t (size SS - DeclNameBegin) in
  (* Description. *)
  let DescriptionBegin := size SS in
  let SS := write SS (printMemberDeclDescription member ExpectedTy false) in
  let DescriptionLength := to_size_t (size SS - DescriptionBegin) in
  (* Sourcetext. *)
  let SourceTextBegin := size SS in
  let SS := write SS (printMemberDeclDescription member ExpectedTy true) in
  let SourceTextLength := to_size_t (size SS - SourceTextBegin) in
  (* DocBrief. *)
  (SS, mkMemberInfo DeclNameBegin DeclNameLength DescriptionBegin
         DescriptionLength SourceTextBegin SourceTextLength (resolveDocBrief member)).

(** The whole loop, from a given arena and an empty [ImplicitMembers]. *)
Definition handleSingleResult_members (ExpectedTy : Ty) (SS : SmallString)
    (members : list ValueDecl) : SmallString * list MemberInfo :=
  foldl (λ '(SS, ImplicitMembers) member,
           let '(SS, memberElem) := handleSingleResult_member ExpectedTy SS member in
           (SS, ImplicitMembers ++ [memberElem]))
        (SS, []) members.

(** [handleSingleResult] up to the end of the member loop.  The two top-level
    offsets and lengths are [unsigned]. *)
Definition handleSingleResult_print (Item : ide.TypeContextInfoItem) : Locals :=
  let SS : SmallString := [] in
  let TypeNameBegin := to_unsigned (size SS) in
  let SS := write SS (Type_print (ide.ExpectedTy Item)) in
  let TypeNameLength := to_unsigned (to_size_t (size SS - TypeNameBegin)) in
  let TypeUSRBegin := to_unsigned (size SS) in
  let SS := write SS (printTypeUSR (ide.ExpectedTy Item)) in
  let TypeUSRLength := to_unsigned (to_size_t (size SS - TypeUSRBegin)) in
  let '(SS, ImplicitMembers) :=
    handleSingleResult_members (ide.ExpectedTy Item) SS (ide.ImplicitMembers Item) in
  mkLocals SS TypeNameBegin TypeNameLength TypeUSRBegin TypeUSRLength ImplicitMembers.

(** The body of [for (auto &info : ImplicitMembers)]; [SSp] is the buffer
    [SS.begin()] points into. *)
Definition toMember (SSp : nat) (info : MemberInfo) : Member :=
  let Name := mkStringRef SSp (DeclNameBegin info) (DeclNameLength info) in
  let Description := mkStringRef SSp (DescriptionBegin info) (DescriptionLength info) in
  let SourceText := mkStringRef SSp (SourceTextBegin info) (SourceTextLength info) in
  mkMember Name Description SourceText (BriefComment info).

(** [Info] as it stands before [SKConsumer.handleResult(Info)]. *)
Definition handleSingleResult_Info (SSp : nat) (L : Locals) : t :=
  let SKImplicitMembers := toMember SSp <$> ImplicitMembers L in
  mk (mkStringRef SSp (TypeNameBegin L) (TypeNameLength L))
     (mkStringRef SSp (TypeUSRBegin L) (TypeUSRLength L))
     SKImplicitMembers.

Definition SKConsumer_handleResult (Info : t) : M unit :=
  m ← get_mem; emit (TypeContextInfoConsumer_handleResult m Info).

(** [Consumer::handleSingleResult]: [SS] is a local of the call. *)
Definition handleSingleResult (Item : ide.TypeContextInfoItem) : M unit :=
  SSp ← alloca;
  let L := handleSingleResult_print Item in
  store SSp (SS L);;
  SKConsumer_handleResult (handleSingleResult_Info SSp L);;
  dealloc SSp.

(** [Consumer::handleResults]. *)
Definition handleResults (Results : list ide.TypeContextInfoItem) : M unit :=
  for_each handleSingleResult Results.

(** [swiftTypeContextInfoImpl]: the returned flag and [Error].  The tracing
    and diagnostic consumers it sets up are not called back by this file and
    are left out; the deferred [removeDiagnosticConsumer] runs when the scope
    that registered it is left. *)
Definition swiftTypeContextInfoImpl (UnresolvedInputFile : MemoryBuffer)
    (Offset : Z) (Args : list string) (FileSystem : FileSystem)
    (Error_ : string) : M (bool * string) :=
  (* Resolve symlinks for the input file. *)
  let bufferIdentifier :=
    match getRealPath FileSystem (getBufferIdentifier UnresolvedInputFile) with
    | Some real => real
    | None => getBufferIdentifier UnresolvedInputFile
    end in
  let '(newBuffer, Offset) :=
    makeCodeCompletionMemoryBuffer UnresolvedInputFile Offset bufferIdentifier in
  let '(Failed, Invocation, Error_) :=
    initCompilerInvocation Args (getBufferIdentifier newBuffer) FileSystem Error_ in
  emit (initCompilerInvocation_returned Failed Invocation);;
  if Failed then mret (false, Error_)
  else if negb (hasInputs Invocation)
  then mret (false, "no input filenames specified"%string)
  else
    (* Pin completion instance. *)
    let '(CI, Error_) :=
      getCompilerInstance Invocation FileSystem newBuffer Offset Error_ in
    emit (getCompilerInstance_returned CI);;
    match CI with
    | None => mret (false, Error_)
    | Some CI =>
        (* Perform the parsing and completion. *)
        CI ← (if hasPersistentParserState CI then mret CI
              else emit (performParseAndResolveImportsOnly_called CI);;
                   mret (performParseAndResolveImportsOnly CI));
        emit (performCodeCompletionSecondPass_called (getPersistentParserState CI));;
        for_each handleResults (typeContextInfoSecondPass (getPersistentParserState CI));;
        emit removeDiagnosticConsumer_called;;
        mret (true, Error_)
    end.

(** [SwiftLangSupport::getExpressionContextInfo]. *)
Definition getExpressionContextInfo (UnresolvedInputFile : MemoryBuffer)
    (Offset : Z) (Args : list string) (vfsOptions : option VFSOptions) : M unit :=
  let error := ""%string in
  let '(fileSystem, error) := getFileSystem vfsOptions error in
  match fileSystem with
  | None => emit (Consumer_failed error)
  | Some fileSystem =>
      '(ok, error) ← swiftTypeContextInfoImpl UnresolvedInputFile Offset Args
                       fileSystem error;
      if negb ok then emit (Consumer_failed error) else mret tt
  end.

End Consumer.
End TypeContext.

(** ** [SwiftLangSupport::getConformingMethodList] *)

Module ConformingMethods.
Import SourceKit.ConformingMethodListResult.

(** The local [struct MemberInfo] of [handleResult]. *)
Record MemberInfo := mkMemberInfo {
  DeclNameBegin : Z;
  DeclNameLength : Z;
  TypeNameBegin : Z;
  TypeNameLength : Z;
  TypeUSRBegin : Z;
  TypeUSRLength : Z;
  DescriptionBegin : Z;
  DescriptionLength : Z;
  SourceTextBegin : Z;
  SourceTextLength : Z;
  BriefComment : Text
}.

Record Locals := mkLocals {
  SS : SmallString;
  TypeNameBegin_ : Z;
  TypeNameLength_ : Z;
  TypeUSRBegin_ : Z;
  TypeUSRLength_ : Z;
  Members_ : list MemberInfo
}.

Section Consumer.
Context `{Frontend}.

(** The first three statements of the member loop: the member's result type
    once [Result.ExprType] is its base; [None] when one of the two casts
    fails its assertion. *)
Definition resultTy (Result : ide.ConformingMethodListResult)
    (member : ValueDecl) : option Ty :=
  FD ← dyn_cast_FuncDecl member;
  let funcTy := getMethodInterfaceType FD in
  let funcTy := getTypeOfMember (ide.ExprType Result)
                  (getParentModule (ide.DC Result)) member funcTy in
  FT ← getAs_FunctionType funcTy;
  Some (getResult FT).

(** The body of [for (auto member : Result.Members)]. *)
Definition handleResult_member (Result : ide.ConformingMethodListResult)
    (SS : SmallString) (member : ValueDecl) : option (SmallString * MemberInfo) :=
  resultTy ← resultTy Result member;
  (* Name. *)
  let DeclNameBegin := size SS in
  let SS := write SS (getFullName_print member) in
  let DeclNameLength := to_size_t (size SS - DeclNameBegin) in
  (* Type name. *)
  let TypeNameBegin := size SS in
  let SS := write SS (Type_print resultTy) in
  let TypeNameLength := to_size_t (size SS - TypeNameBegin) in
  (* Type USR. *)
  let TypeUSRBegin := size SS in
  let SS := write SS (printTypeUSR resultTy) in
  let TypeUSRLength := to_size_t (size SS - TypeUSRBegin) in
  (* Description. *)
  let DescriptionBegin := size SS in
  let SS := write SS (printMemberDeclDescription member (ide.ExprType Result) false) in
  let DescriptionLength := to_size_t (size SS - DescriptionBegin) in
  (* Sourcetext. *)
  let SourceTextBegin := size SS in
  let SS := write SS (printMemberDeclDescription member (ide.ExprType Result) true) in
  let SourceTextLength := to_size_t (size SS - SourceTextBegin) in
  (* DocBrief. *)
  Some (SS, mkMemberInfo DeclNameBegin DeclNameLength TypeNameBegin TypeNameLength
              TypeUSRBegin TypeUSRLength DescriptionBegin DescriptionLength
              SourceTextBegin SourceTextLength (resolveDocBrief member)).

(** The whole loop, from the arena and the [Members] vector so far. *)
Fixpoint handleResult_members (Result : ide.ConformingMethodListResult)
    (SS : SmallString) (Members : list MemberInfo) (members : list ValueDecl)
    : option (SmallString * list MemberInfo) :=
  match members with
  | [] => Some (SS, Members)
  | member :: members =>
      '(SS, memberElem) ← handleResult_member Result SS member;
      handleResult_members Result SS (Members ++ [memberElem]) members
  end.

(** [handleResult] up to the end of the member loop. *)
Definition handleResult_print (Result : ide.ConformingMethodListResult)
    : option Locals :=
  let SS : SmallString := [] in
  let TypeNameBegin := to_unsigned (size SS) in
  let SS := write SS (Type_print (ide.ExprType Result)) in
  let TypeNameLength := to_unsigned (to_size_t (size SS - TypeNameBegin)) in
  let TypeUSRBegin := to_unsigned (size SS) in
  let SS := write SS (printTypeUSR (ide.ExprType Result)) in
  let TypeUSRLength := to_unsigned (to_size_t (size SS - TypeUSRBegin)) in
  '(SS, Members) ← handleResult_members Result SS [] (ide.Members Result);
  Some (mkLocals SS TypeNameBegin TypeNameLength TypeUSRBegin TypeUSRLength Members).

(** The body of [for (auto info : Members)]. *)
Definition toMember (SSp : nat) (info : MemberInfo) : Member :=
  let Name := mkStringRef SSp (DeclNameBegin info) (DeclNameLength info) in
  let TypeName := mkStringRef SSp (TypeNameBegin info) (TypeNameLength info) in
  let TypeUSR := mkStringRef SSp (TypeUSRBegin info) (TypeUSRLength info) in
  let Description := mkStringRef SSp (DescriptionBegin info) (DescriptionLength info) in
  let SourceText := mkStringRef SSp (SourceTextBegin info) (SourceTextLength info) in
  mkMember Name TypeName TypeUSR Description SourceText (BriefComment info).

(** [SKResult] as it stands before [SKConsumer.handleResult(SKResult)]. *)
Definition handleResult_SKResult (SSp : nat) (L : Locals) : t :=
  let SKMembers := toMember SSp <$> Members_ L in
  mk (mkStringRef SSp (TypeNameBegin_ L) (TypeNameLength_ L))
     (mkStringRef SSp (TypeUSRBegin_ L) (TypeUSRLength_ L))
     SKMembers.

Definition SKConsumer_handleResult (SKResult : t) : M unit :=
  m ← get_mem; emit (ConformingMethodListConsumer_handleResult m SKResult).

(** [Consumer::handleResult]: [SS] is a local of the call. *)
Definition handleResult (Result : ide.ConformingMethodListResult) : M unit :=
  SSp ← alloca;
  match handleResult_print Result with
  | None => assertion_failed
  | Some L =>
      store SSp (SS L);;
      SKConsumer_handleResult (handleResult_SKResult SSp L);;
      dealloc SSp
  end.

(** [swiftConformingMethodListImpl]; see [swiftTypeContextInfoImpl]. *)
Definition swiftConformingMethodListImpl (UnresolvedInputFile : MemoryBuffer)
    (Offset : Z) (Args : list string) (ExpectedTypeNames : list string)
    (FileSystem : FileSystem) (Error_ : string) : M (bool * string) :=
  (* Resolve symlinks for the input file. *)
  let bufferIdentifier :=
    match getRealPath FileSystem (getBufferIdentifier UnresolvedInputFile) with
    | Some real => real
    | None => getBufferIdentifier UnresolvedInputFile
    end in
  let '(newBuffer, Offset) :=
    makeCodeCompletionMemoryBuffer UnresolvedInputFile Offset bufferIdentifier in
  let '(Failed, Invocation, Error_) :=
    initCompilerInvocation Args (getBufferIdentifier newBuffer) FileSystem Error_ in
  emit (initCompilerInvocation_returned Failed Invocation);;
  if Failed then mret (false, Error_)
  else if negb (hasInputs Invocation)
  then mret (false, "no input filenames specified"%string)
  else
    (* Pin completion instance. *)
    let '(CI, Error_) :=
      getCompilerInstance Invocation FileSystem newBuffer Offset Error_ in
    emit (getCompilerInstance_returned CI);;
    match CI with
    | None => mret (false, Error_)
    | Some CI =>
        (* Perform the parsing and completion. *)
        CI ← (if hasPersistentParserState CI then mret CI
              else emit (performParseAndResolveImportsOnly_called CI);;
                   mret (performParseAndResolveImportsOnly CI));
        emit (performCodeCompletionSecondPass_called (getPersistentParserState CI));;
        for_each handleResult
          (conformingMethodListSecondPass ExpectedTypeNames (getPersistentParserState CI));;
        emit removeDiagnosticConsumer_called;;
        mret (true, Error_)
    end.

(** [SwiftLangSupport::getConformingMethodList]. *)
Definition getConformingMethodList (UnresolvedInputFile : MemoryBuffer)
    (Offset : Z) (Args : list string) (ExpectedTypeNames : list string)
    (vfsOptions : option VFSOptions) : M unit :=
  let error := ""%string in
  let '(fileSystem, error) := getFileSystem vfsOptions error in
  match fileSystem with
  | None => emit (Consumer_failed error)
  | Some fileSystem =>
      '(ok, error) ← swiftConformingMethodListImpl UnresolvedInputFile Offset
                       Args ExpectedTypeNames fileSystem error;
      if negb ok then emit (Consumer_failed error) else mret tt
  end.

End Consumer.
End ConformingMethods.

(** ** Notions the properties are stated with *)

(** A size that a [size_t] holds. *)
Definition fits_size_t (SS : SmallString) : Prop :=
  Z.of_nat (length SS) < 2 ^ size_t_bits.

(** A length that an [unsigned] holds. *)
Definition fits_unsigned (text : Text) : Prop :=
  Z.of_nat (length text) < 2 ^ unsigned_bits.

(** The view [r] reads exactly [text] in [m]; an empty [text] is read through
    a view of length zero. *)
Definition resolves (m : Memory) (r : StringRef) (text : Text) : Prop :=
  str m r = Some text ∧ Length r = Z.of_nat (length text).

(** The view lies inside a buffer of [n] bytes. *)
Definition in_bounds (n : Z) (r : StringRef) : Prop :=
  0 ≤ Begin r ∧ 0 ≤ Length r ∧ Begin r + Length r ≤ n.

(** The byte ranges of two views do not meet. *)
Definition disjoint_spans (r1 r2 : StringRef) : Prop :=
  Begin r1 + Length r1 ≤ Begin r2 ∨ Begin r2 + Length r2 ≤ Begin r1.

(** Views laid out one after the other between [lo] and [hi]. *)
Fixpoint ordered (lo : Z) (l : list StringRef) (hi : Z) : Prop :=
  match l with
  | [] => lo ≤ hi
  | r :: l => lo ≤ Begin r ∧ 0 ≤ Length r ∧ ordered (Begin r + Length r) l hi
  end.

Section Outcomes.
Context `{Frontend}.

(** What one request may do to its consumer: results only, or one failure
    and nothing else. *)
Definition one_outcome (tr : list Event) : Prop :=
  List.filter is_failed tr = [] ∨
  (List.filter is_handleResult tr = [] ∧
   ∃ msg, List.filter is_failed tr = [Consumer_failed msg]).

(** The calls made on the consumer. *)
Definition consumer_calls (tr : list Event) : list Event :=
  List.filter (λ e, is_handleResult e || is_failed e) tr.

(** The Clang comment the [// DocBrief.] block finds for a member, if any. *)
Definition foreign_comment (member : ValueDecl) : option RawComment :=
  node ← getClangNode member; D ← getAsDecl node; getRawCommentForAnyRedecl D.

(** The three cases of the brief documentation. *)
Definition doc_brief_cases (member : ValueDecl) (doc : Text) : Prop :=
  (∀ node RC, getClangNode member = Some node →
     foreign_comment member = Some RC → doc = getBriefText RC) ∧
  (getClangNode member = None → doc = getBriefComment member) ∧
  (foreign_comment member = None →
     (is_Some (getClangNode member) ∨ getBriefComment member = []) → doc = []).

(** The member is a method whose type, seen from [Result.ExprType], is a
    function type [FT]. *)
Definition method_with_type (Result : ide.ConformingMethodListResult)
    (member : ValueDecl) (FT : FunctionType) : Prop :=
  ∃ FD, dyn_cast_FuncDecl member = Some FD ∧
    getAs_FunctionType
      (getTypeOfMember (ide.ExprType Result) (getParentModule (ide.DC Result))
         member (getMethodInterfaceType FD)) = Some FT.

(** The two [Impl] functions differ in the callbacks they install only, and
    the two entry points in the [Impl] they call: their common shape, with
    what the second pass does to the consumer left open. *)
Definition Impl_with (secondPass : PersistentParserState → M unit)
    (UnresolvedInputFile : MemoryBuffer) (Offset : Z) (Args : list string)
    (FileSystem : FileSystem) (Error_ : string) : M (bool * string) :=
  let bufferIdentifier :=
    match getRealPath FileSystem (getBufferIdentifier UnresolvedInputFile) with
    | Some real => real
    | None => getBufferIdentifier UnresolvedInputFile
    end in
  let '(newBuffer, Offset) :=
    makeCodeCompletionMemoryBuffer UnresolvedInputFile Offset bufferIdentifier in
  let '(Failed, Invocation, Error_) :=
    initCompilerInvocation Args (getBufferIdentifier newBuffer) FileSystem Error_ in
  emit (initCompilerInvocation_returned Failed Invocation);;
  if Failed then mret (false, Error_)
  else if negb (hasInputs Invocation)
  then mret (false, "no input filenames specified"%string)
  else
    let '(CI, Error_) :=
      getCompilerInstance Invocation FileSystem newBuffer Offset Error_ in
    emit (getCompilerInstance_returned CI);;
    match CI with
    | None => mret (false, Error_)
    | Some CI =>
        CI ← (if hasPersistentParserState CI then mret CI
              else emit (performParseAndResolveImportsOnly_called CI);;
                   mret (performParseAndResolveImportsOnly CI));
        emit (performCodeCompletionSecondPass_called (getPersistentParserState CI));;
        secondPass (getPersistentParserState CI);;
        emit removeDiagnosticConsumer_called;;
        mret (true, Error_)
    end.

Definition request_with (secondPass : PersistentParserState → M unit)
    (UnresolvedInputFile : MemoryBuffer) (Offset : Z) (Args : list string)
    (vfsOptions : option VFSOptions) : M unit :=
  let error := ""%string in
  let '(fileSystem, error) := getFileSystem vfsOptions error in
  match fileSystem with
  | None => emit (Consumer_failed error)
  | Some fileSystem =>
      '(ok, error) ← Impl_with secondPass UnresolvedInputFile Offset Args
                       fileSystem error;
      if negb ok then emit (Consumer_failed error) else mret tt
  end.

(** Calls of the consumer's result handler and nothing else. *)
Definition result_events (evs : list Event) : Prop :=
  Forall (λ e, is_handleResult e = true) evs.

(** A second pass that only hands results to the consumer, whether it
    returns or stops at a failed assertion. *)
Definition hands_results_only (secondPass : PersistentParserState → M unit) : Prop :=
  ∀ State w, ∃ evs,
    trace (world_of (secondPass State w)) = trace w ++ evs ∧ result_events evs.

(** The calls of a request that acquired the instance [CI]: the parse pass
    when [CI] has no parser state, the second pass, the results [evs], and
    the deferred call unless the process stopped before. *)
Definition completed_trace (Invocation : CompilerInvocation)
    (CI : CompilerInstance) (evs tail : list Event) : list Event :=
  [initCompilerInvocation_returned false Invocation;
   getCompilerInstance_returned (Some CI)] ++
  (if hasPersistentParserState CI then []
   else [performParseAndResolveImportsOnly_called CI]) ++
  [performCodeCompletionSecondPass_called
     (getPersistentParserState
        (if hasPersistentParserState CI then CI
         else performParseAndResolveImportsOnly CI))] ++
  evs ++ tail.

(** The five ways a request can go. *)
Inductive request_trace : list Event → Prop :=
| no_file_system msg :
    request_trace [Consumer_failed msg]
| invocation_failed Invocation msg :
    request_trace [initCompilerInvocation_returned true Invocation;
                   Consumer_failed msg]
| no_inputs Invocation :
    hasInputs Invocation = false →
    request_trace [initCompilerInvocation_returned false Invocation;
                   Consumer_failed "no input filenames specified"]
| no_instance Invocation msg :
    hasInputs Invocation = true →
    request_trace [initCompilerInvocation_returned false Invocation;
                   getCompilerInstance_returned None;
                   Consumer_failed msg]
| completed Invocation CI evs tail :
    hasInputs Invocation = true →
    result_events evs →
    tail = [] ∨ tail = [removeDiagnosticConsumer_called] →
    request_trace (completed_trace Invocation CI evs tail).

End Outcomes.

Module TypeContextSpec.
Import SourceKit.TypeContextInfoItem TypeContext.
Section Spec.
Context `{Frontend}.

(** Every view of a delivered item. *)
Definition views (Info : t) : list StringRef :=
  [TypeName Info; TypeUSR Info] ++
  (m ← SourceKit.TypeContextInfoItem.ImplicitMembers Info;
   [Name m; Description m; SourceText m]).

(** The record of a member: its three texts behind the views, and its brief
    documentation. *)
Definition member_record (ExpectedTy : Ty) (m : Memory)
    (member : ValueDecl) (skm : Member) : Prop :=
  resolves m (Name skm) (getFullName_print member) ∧
  resolves m (Description skm) (printMemberDeclDescription member ExpectedTy false) ∧
  resolves m (SourceText skm) (printMemberDeclDescription member ExpectedTy true) ∧
  DocBrief skm = resolveDocBrief member.

(** Every text printed for [Item] is read back through its view. *)
Definition roundtrip (Item : ide.TypeContextInfoItem) (m : Memory) (Info : t) : Prop :=
  resolves m (TypeName Info) (Type_print (ide.ExpectedTy Item)) ∧
  resolves m (TypeUSR Info) (printTypeUSR (ide.ExpectedTy Item)) ∧
  Forall2 (member_record (ide.ExpectedTy Item) m)
    (ide.ImplicitMembers Item) (SourceKit.TypeContextInfoItem.ImplicitMembers Info).

(** [handleSingleResult] hands one item to the consumer, and every printed
    text is read back from it. *)
Definition delivers_roundtrip (Item : ide.TypeContextInfoItem) (w : World) : Prop :=
  ∃ m Info,
    trace (world_of (handleSingleResult Item w))
      = trace w ++ [TypeContextInfoConsumer_handleResult m Info] ∧
    roundtrip Item m Info.

(** The three texts printed for one member, in the order printed. *)
Definition member_text (ExpectedTy : Ty) (member : ValueDecl) : Text :=
  getFullName_print member ++
  printMemberDeclDescription member ExpectedTy false ++
  printMemberDeclDescription member ExpectedTy true.

(** The records of members printed from offset [start] on, with no
    wrap-around. *)
Fixpoint layout (ExpectedTy : Ty) (start : Z) (members : list ValueDecl)
    : list MemberInfo :=
  match members with
  | [] => []
  | member :: members =>
      let n := Z.of_nat (length (getFullName_print member)) in
      let d := Z.of_nat (length (printMemberDeclDescription member ExpectedTy false)) in
      let s := Z.of_nat (length (printMemberDeclDescription member ExpectedTy true)) in
      mkMemberInfo start n (start + n) d (start + n + d) s (resolveDocBrief member)
      :: layout ExpectedTy (start + n + d + s) members
  end.

(** The consumer call [handleSingleResult] makes for [Item] from the memory
    [m]: the arena is a buffer not alive in [m]. *)
Definition delivery (m : Memory) (Item : ide.TypeContextInfoItem) : Event :=
  let b := fresh (dom m) in
  let L := handleSingleResult_print Item in
  TypeContextInfoConsumer_handleResult (<[b := SS L]> m) (handleSingleResult_Info b L).

(** A consumer that keeps the item it was handed can still read it once
    [handleSingleResult] has returned. *)
Definition result_outlives_call (Item : ide.TypeContextInfoItem) (w : World) : Prop :=
  ∀ m Info,
    In (TypeContextInfoConsumer_handleResult m Info)
       (trace (world_of (handleSingleResult Item w))) →
    str (mem (world_of (handleSingleResult Item w))) (TypeName Info)
      = Some (Type_print (ide.ExpectedTy Item)).

(** The views handed over point into the arena [handleSingleResult] made, lie
    inside it and do not overlap; at every point of the member loop, the
    arena so far is the beginning of the finished arena and the records so
    far are the ones handed over. *)
Definition spans_sound (Item : ide.TypeContextInfoItem) (w : World) : Prop :=
  ∃ b arena Info,
    trace (world_of (handleSingleResult Item w))
      = trace w ++ [TypeContextInfoConsumer_handleResult (<[b := arena]> (mem w)) Info] ∧
    (∀ r, r ∈ views Info → Base r = b ∧ in_bounds (Z.of_nat (length arena)) r) ∧
    (∀ (i j : nat) r1 r2, i ≠ j →
       views Info !! i = Some r1 → views Info !! j = Some r2 →
       disjoint_spans r1 r2) ∧
    (∀ members1 members2,
       ide.ImplicitMembers Item = members1 ++ members2 →
       let ty := ide.ExpectedTy Item in
       let so_far :=
         handleSingleResult_members ty
           (write (write [] (Type_print ty)) (printTypeUSR ty)) members1 in
       so_far.1 `prefix_of` arena ∧
       (toMember b <$> so_far.2)
         `prefix_of` SourceKit.TypeContextInfoItem.ImplicitMembers Info).

End Spec.
End TypeContextSpec.

Module ConformingMethodsSpec.
Import SourceKit.ConformingMethodListResult ConformingMethods.
Section Spec.
Context `{Frontend}.

(** Every view of a delivered result. *)
Definition views (SKResult : t) : list StringRef :=
  [TypeName_ SKResult; TypeUSR_ SKResult] ++
  (m ← SourceKit.ConformingMethodListResult.Members SKResult;
   [Name m; TypeName m; TypeUSR m; Description m; SourceText m]).

(** The record of a member: a method whose type seen from the expression
    type is some function type [FT], the five texts behind the views (the
    type name and USR being those of the result of [FT]), and the brief
    documentation. *)
Definition member_record (Result : ide.ConformingMethodListResult) (m : Memory)
    (member : ValueDecl) (skm : Member) : Prop :=
  ∃ FT, method_with_type Result member FT ∧
    resolves m (Name skm) (getFullName_print member) ∧
    resolves m (TypeName skm) (Type_print (getResult FT)) ∧
    resolves m (TypeUSR skm) (printTypeUSR (getResult FT)) ∧
    resolves m (Description skm)
      (printMemberDeclDescription member (ide.ExprType Result) false) ∧
    resolves m (SourceText skm)
      (printMemberDeclDescription member (ide.ExprType Result) true) ∧
    DocBrief skm = resolveDocBrief member.

Definition roundtrip (Result : ide.ConformingMethodListResult) (m : Memory)
    (SKResult : t) : Prop :=
  resolves m (TypeName_ SKResult) (Type_print (ide.ExprType Result)) ∧
  resolves m (TypeUSR_ SKResult) (printTypeUSR (ide.ExprType Result)) ∧
  Forall2 (member_record Result m)
    (ide.Members Result) (SourceKit.ConformingMethodListResult.Members SKResult).

(** [handleResult] hands one result to the consumer, and every printed text
    is read back from it. *)
Definition delivers_roundtrip (Result : ide.ConformingMethodListResult)
    (w : World) : Prop :=
  ∃ m SKResult,
    trace (world_of (handleResult Result w))
      = trace w ++ [ConformingMethodListConsumer_handleResult m SKResult] ∧
    roundtrip Result m SKResult.

(** Every member is a method with a function type: what [handleResult]
    expects of the engine. *)
Definition members_are_methods (Result : ide.ConformingMethodListResult) : Prop :=
  Forall (λ member, ∃ FT, method_with_type Result member FT) (ide.Members Result).

(** The five texts printed for one member whose result type is [rty]. *)
Definition member_text (Result : ide.ConformingMethodListResult)
    (member : ValueDecl) (rty : Ty) : Text :=
  getFullName_print member ++ Type_print rty ++ printTypeUSR rty ++
  printMemberDeclDescription member (ide.ExprType Result) false ++
  printMemberDeclDescription member (ide.ExprType Result) true.

(** The record of a member printed at the end of the arena [pre], with no
    wrap-around. *)
Definition exact_record (Result : ide.ConformingMethodListResult)
    (pre : SmallString) (member : ValueDecl) (rty : Ty) : MemberInfo :=
  let start := Z.of_nat (length pre) in
  let n := Z.of_nat (length (getFullName_print member)) in
  let t := Z.of_nat (length (Type_print rty)) in
  let u := Z.of_nat (length (printTypeUSR rty)) in
  let d := Z.of_nat (length (printMemberDeclDescription member (ide.ExprType Result) false)) in
  let s := Z.of_nat (length (printMemberDeclDescription member (ide.ExprType Result) true)) in
  mkMemberInfo start n (start + n) t (start + n + t) u (start + n + t + u) d
    (start + n + t + u + d) s (resolveDocBrief member).

(** [laid_out Result SS members infos SS']: printing [members] turns the
    arena [SS] into [SS'] and makes the records [infos], each exact. *)
Inductive laid_out (Result : ide.ConformingMethodListResult)
    : SmallString → list ValueDecl → list MemberInfo → SmallString → Prop :=
| laid_out_nil SS : laid_out Result SS [] [] SS
| laid_out_cons SS member rty members infos SS' :
    resultTy Result member = Some rty →
    laid_out Result (SS ++ member_text Result member rty) members infos SS' →
    laid_out Result SS (member :: members)
      (exact_record Result SS member rty :: infos) SS'.

(** As [TypeContextSpec.spans_sound], for [handleResult]. *)
Definition spans_sound (Result : ide.ConformingMethodListResult) (w : World) : Prop :=
  ∃ b arena SKResult,
    trace (world_of (handleResult Result w))
      = trace w ++ [ConformingMethodListConsumer_handleResult
                      (<[b := arena]> (mem w)) SKResult] ∧
    (∀ r, r ∈ views SKResult → Base r = b ∧ in_bounds (Z.of_nat (length arena)) r) ∧
    (∀ (i j : nat) r1 r2, i ≠ j →
       views SKResult !! i = Some r1 → views SKResult !! j = Some r2 →
       disjoint_spans r1 r2) ∧
    (∀ members1 members2,
       ide.Members Result = members1 ++ members2 →
       let ty := ide.ExprType Result in
       ∃ SS1 Members1,
         handleResult_members Result
           (write (write [] (Type_print ty)) (printTypeUSR ty)) [] members1
           = Some (SS1, Members1) ∧
         SS1 `prefix_of` arena ∧
         (toMember b <$> Members1)
           `prefix_of` SourceKit.ConformingMethodListResult.Members SKResult).

End Spec.
End ConformingMethodsSpec.

(** ** What a request asks of the front end

    The arguments with which the two [Impl] functions call the front end,
    read off their first statements: the identifier is the real path of the
    input file when [getRealPath] gives one and the file's own identifier
    otherwise; the invocation is made for the identifier of the buffer
    [makeCodeCompletionMemoryBuffer] returns and with the error string the
    entry point holds; the instance is asked for that buffer and for the
    offset that call left in [Offset]. *)

Section Asked.
Context `{Frontend}.

Definition resolved_identifier (FileSystem : FileSystem)
    (UnresolvedInputFile : MemoryBuffer) : string :=
  match getRealPath FileSystem (getBufferIdentifier UnresolvedInputFile) with
  | Some real => real
  | None => getBufferIdentifier UnresolvedInputFile
  end.

Definition completion_buffer (FileSystem : FileSystem)
    (UnresolvedInputFile : MemoryBuffer) (Offset : Z) : MemoryBuffer * Z :=
  makeCodeCompletionMemoryBuffer UnresolvedInputFile Offset
    (resolved_identifier FileSystem UnresolvedInputFile).

Definition invocation_asked (FileSystem : FileSystem)
    (UnresolvedInputFile : MemoryBuffer) (Offset : Z) (Args : list string)
    (Error_ : string) : bool * CompilerInvocation * string :=
  initCompilerInvocation Args
    (getBufferIdentifier (completion_buffer FileSystem UnresolvedInputFile Offset).1)
    FileSystem Error_.

Definition instance_asked (FileSystem : FileSystem)
    (UnresolvedInputFile : MemoryBuffer) (Offset : Z)
    (Invocation : CompilerInvocation) (Error_ : string)
    : option CompilerInstance * string :=
  getCompilerInstance Invocation FileSystem
    (completion_buffer FileSystem UnresolvedInputFile Offset).1
    (completion_buffer FileSystem UnresolvedInputFile Offset).2 Error_.

(** The parser state the second pass is run on. *)
Definition state_for_second_pass (CI : CompilerInstance) : PersistentParserState :=
  getPersistentParserState
    (if hasPersistentParserState CI then CI
     else performParseAndResolveImportsOnly CI).

(** The consumer call [handleResult] makes for [Result] from the memory [m],
    when its casts succeed. *)
Definition conformingMethods_delivery (m : Memory)
    (Result : ide.ConformingMethodListResult) (e : Event) : Prop :=
  ∃ L, ConformingMethods.handleResult_print Result = Some L ∧
    e = ConformingMethodListConsumer_handleResult
          (<[fresh (dom m) := ConformingMethods.SS L]> m)
          (ConformingMethods.handleResult_SKResult (fresh (dom m)) L).

(** The texts printed for the members of a conforming-method result, one
    after the other. *)
Definition conformingMethods_texts (Result : ide.ConformingMethodListResult)
    (members : list ValueDecl) : Text :=
  member ← members;
  match ConformingMethods.resultTy Result member with
  | Some rty => ConformingMethodsSpec.member_text Result member rty
  | None => []
  end.

End Asked.

(** Views that cover a range of bytes exactly: each begins where the one
    before ends, the first at [lo], and the last ends at [hi]. *)
Fixpoint tiled (lo : Z) (l : list StringRef) (hi : Z) : Prop :=
  match l with
  | [] => lo = hi
  | r :: l => Begin r = lo ∧ 0 ≤ Length r ∧ tiled (lo + Length r) l hi
  end.

(** ** The arena during the consumer call and after it

    What a result borrows: the arena is a buffer that is not alive when the
    emitter is called; the consumer is called once, with that buffer alive
    and holding every text printed for the result, in the order printed,
    and with views that all point into it; while the arena's size is one
    [SS.size()] can return, every view lies inside the arena and can be
    read during the consumer call; when the emitter returns the memory is
    what it was before the call, so the buffer is gone and every view
    handed over reads nothing. *)

Section Borrowed.
Context `{Frontend}.

(** The texts [handleSingleResult] prints for an item, in the order
    printed. *)
Definition typeContext_texts (Item : ide.TypeContextInfoItem) : Text :=
  Type_print (ide.ExpectedTy Item) ++ printTypeUSR (ide.ExpectedTy Item) ++
  (ide.ImplicitMembers Item ≫= TypeContextSpec.member_text (ide.ExpectedTy Item)).

(** The texts [handleResult] prints for a result, in the order printed. *)
Definition conformingMethods_result_texts
    (Result : ide.ConformingMethodListResult) : Text :=
  Type_print (ide.ExprType Result) ++ printTypeUSR (ide.ExprType Result) ++
  conformingMethods_texts Result (ide.Members Result).

(** The views [vs] handed to a consumer that runs in the memory [during],
    for an emitter called in the memory [before] that printed [arena] into
    the buffer [b]. *)
Definition views_borrow (before during : Memory) (b : nat) (arena : SmallString)
    (vs : list StringRef) : Prop :=
  before !! b = None ∧
  during = <[b := arena]> before ∧
  Forall (λ r, Base r = b) vs ∧
  (fits_size_t arena →
   Forall (λ r, in_bounds (Z.of_nat (length arena)) r ∧ is_Some (str during r)) vs) ∧
  Forall (λ r, str before r = None) vs.

Definition typeContext_arena_borrowed (Item : ide.TypeContextInfoItem)
    (w : World) : Prop :=
  ∃ b during Info,
    TypeContext.handleSingleResult Item w
      = Ok tt (mkWorld (mem w)
                 (trace w ++ [TypeContextInfoConsumer_handleResult during Info])) ∧
    views_borrow (mem w) during b (typeContext_texts Item)
      (TypeContextSpec.views Info).

Definition conformingMethods_arena_borrowed
    (Result : ide.ConformingMethodListResult) (w : World) : Prop :=
  ∃ b during SKResult,
    ConformingMethods.handleResult Result w
      = Ok tt (mkWorld (mem w)
                 (trace w ++ [ConformingMethodListConsumer_handleResult
                                during SKResult])) ∧
    views_borrow (mem w) during b (conformingMethods_result_texts Result)
      (ConformingMethodsSpec.views SKResult).

End Borrowed.

(** ** A small engine to run the emitters on

    Types with a [Self] placeholder that [getTypeOfMember] replaces by the
    base type, and a type [TLong n] whose name is [n] bytes long;
    declarations that are methods or not, imported from Clang or not; a
    front end whose answers are read off the arguments. *)

Module Toy.

Inductive ToyTy :=
| TInt
| TSelf
| TArray (T : ToyTy)
| TFunc (Param Result : ToyTy)
| TLong (n : N).

Inductive ToyClangNode :=
| ClangDeclNode (comment : option string)
| ClangMacroNode.

Record ToyDecl := mkDecl {
  decl_name : string;
  decl_type : ToyTy;
  decl_is_func : bool;
  decl_clang : option ToyClangNode;
  decl_brief : string
}.

Definition bytes (s : string) : Text := String.list_byte_of_string s.

Fixpoint print (T : ToyTy) : Text :=
  match T with
  | TInt => bytes "Int"
  | TSelf => bytes "Self"
  | TArray T => bytes "[" ++ print T ++ bytes "]"
  | TFunc P R => bytes "(" ++ print P ++ bytes ") -> " ++ print R
  | TLong n => replicate (N.to_nat n) "x"%byte
  end.

Fixpoint subst (Base T : ToyTy) : ToyTy :=
  match T with
  | TSelf => Base
  | TArray T => TArray (subst Base T)
  | TFunc P R => TFunc (subst Base P) (subst Base R)
  | T => T
  end.

#[export] Instance toy_AST : AST := {|
  Ty := ToyTy;
  ValueDecl := ToyDecl;
  FuncDecl := ToyDecl;
  FunctionType := ToyTy * ToyTy;
  DeclContext := unit;
  ModuleDecl := unit;
  ClangNode := ToyClangNode;
  ClangDecl := option string;
  RawComment := string;
  Type_print := print;
  printTypeUSR := λ T, bytes "$s" ++ print T;
  getFullName_print := λ d, bytes (decl_name d);
  printMemberDeclDescription := λ d T usePlaceholder,
    bytes (decl_name d) ++ bytes (if usePlaceholder then "(<#x#>)" else "(x:)");
  getClangNode := decl_clang;
  getAsDecl := λ node,
    match node with ClangDeclNode c => Some c | ClangMacroNode => None end;
  getRawCommentForAnyRedecl := λ D, D;
  getBriefText := bytes;
  getBriefComment := λ d, bytes (decl_brief d);
  dyn_cast_FuncDecl := λ d, if decl_is_func d then Some d else None;
  getMethodInterfaceType := decl_type;
  getParentModule := λ _, tt;
  getTypeOfMember := λ Base _ _ T, subst Base T;
  getAs_FunctionType := λ T,
    match T with TFunc P R => Some (P, R) | _ => None end;
  getResult := snd
|}.

Definition zero : ToyDecl := mkDecl "zero" TSelf false None "The zero value.".
Definition max : ToyDecl :=
  mkDecl "max" TSelf false (Some (ClangDeclNode (Some "Largest value."))) "unused".
Definition bare : ToyDecl := mkDecl "bare" TSelf false (Some (ClangDeclNode None)) "unused".
Definition macro : ToyDecl := mkDecl "MACRO" TInt false (Some ClangMacroNode) "unused".
Definition plain : ToyDecl := mkDecl "plain" TInt false None "".
Definition repeated : ToyDecl :=
  mkDecl "repeated" (TFunc TInt (TArray TSelf)) true None "Copies of self.".

Definition item : ide.TypeContextInfoItem :=
  ide.mkTypeContextInfoItem TInt [zero; max; zero].
Definition undocumented : ide.TypeContextInfoItem :=
  ide.mkTypeContextInfoItem TInt [bare; macro; plain].
Definition long_item (n : N) : ide.TypeContextInfoItem :=
  ide.mkTypeContextInfoItem (TLong n) [].

(** Four items as the engine may hand them to [handleResults]; the last two
    have no member. *)
Definition items : list ide.TypeContextInfoItem :=
  [item; undocumented; long_item 2; long_item 1].

Definition result : ide.ConformingMethodListResult :=
  ide.mkConformingMethodListResult tt TInt [repeated].
Definition not_a_method : ide.ConformingMethodListResult :=
  ide.mkConformingMethodListResult tt TInt [repeated; zero].

(** The front end: a buffer is its name, and as many bytes long; the file
    system cannot be made from the options [false], and it knows one
    symbolic link, ["link.swift"], whose real path is ["real.swift"]; the
    completion buffer is named after the identifier it is given, and an
    offset past the end of the input is moved to its end (as
    [makeCodeCompletionMemoryBuffer] does through its reference to
    [Offset]); the arguments are the input files unless ["-invalid"] is one
    of them; no instance can be had for the very end of a buffer, where
    there is nothing to complete, and the instance at offset 0 comes with
    its parser state.  Offsets are values of an [unsigned]. *)
#[export] Instance toy_Frontend : Frontend := {|
  MemoryBuffer := string;
  FileSystem := unit;
  VFSOptions := bool;
  CompilerInvocation := list string;
  CompilerInstance := bool;
  PersistentParserState := unit;
  getBufferIdentifier := λ buf, buf;
  getFileSystem := λ vfsOptions error,
    match vfsOptions with
    | Some false => (None, "cannot make the file system"%string)
    | _ => (Some tt, error)
    end;
  getRealPath := λ _ path,
    if bool_decide (path = "link.swift"%string) then Some "real.swift"%string
    else None;
  makeCodeCompletionMemoryBuffer := λ buf Offset id,
    (id, Z.min Offset (Z.of_nat (String.length buf)));
  initCompilerInvocation := λ Args _ _ Error_,
    if bool_decide ("-invalid"%string ∈ Args)
    then (true, [], "unknown argument"%string)
    else (false, Args, Error_);
  hasInputs := λ Invocation, negb (bool_decide (Invocation = []));
  getCompilerInstance := λ _ _ buf Offset Error_,
    if bool_decide (Offset = Z.of_nat (String.length buf))
    then (None, String.append "nothing to complete at the end of " buf)
    else (Some (bool_decide (Offset = 0)), Error_);
  hasPersistentParserState := λ CI, CI;
  performParseAndResolveImportsOnly := λ _, true;
  getPersistentParserState := λ _, tt;
  typeContextInfoSecondPass := λ _, [[item; undocumented]];
  conformingMethodListSecondPass := λ ExpectedTypeNames _,
    if bool_decide (ExpectedTypeNames = []) then [] else [result]
|}.

Definition w0 : World := mkWorld ∅ [].

End Toy.

(** The same engine with a second pass that emits three conforming-method
    results, the second of which has a member that is no method. *)
Definition toy_Frontend_with_a_property : @Frontend Toy.toy_AST := {|
  MemoryBuffer := string;
  FileSystem := unit;
  VFSOptions := bool;
  CompilerInvocation := list string;
  CompilerInstance := bool;
  PersistentParserState := unit;
  getBufferIdentifier := λ buf, buf;
  getFileSystem := @getFileSystem _ Toy.toy_Frontend;
  getRealPath := @getRealPath _ Toy.toy_Frontend;
  makeCodeCompletionMemoryBuffer := @makeCodeCompletionMemoryBuffer _ Toy.toy_Frontend;
  initCompilerInvocation := @initCompilerInvocation _ Toy.toy_Frontend;
  hasInputs := @hasInputs _ Toy.toy_Frontend;
  getCompilerInstance := @getCompilerInstance _ Toy.toy_Frontend;
  hasPersistentParserState := λ CI, CI;
  performParseAndResolveImportsOnly := λ _, true;
  getPersistentParserState := λ _, tt;
  typeContextInfoSecondPass := λ _, [];
  conformingMethodListSecondPass := λ _ _,
    [Toy.result; Toy.not_a_method; Toy.result]
|}.

(** * Properties *)

(** ** Integers, the arena and views *)

Lemma to_size_t_small z : 0 ≤ z < 2 ^ size_t_bits → to_size_t z = z.
Proof. intros Hz. unfold to_size_t. by apply Z.mod_small. Qed.

Lemma to_unsigned_small z : 0 ≤ z < 2 ^ unsigned_bits → to_unsigned z = z.
Proof. intros Hz. unfold to_unsigned. by apply Z.mod_small. Qed.

Lemma to_unsigned_range z : 0 ≤ to_unsigned z < 2 ^ unsigned_bits.
Proof. unfold to_unsigned. apply Z.mod_pos_bound. by vm_compute. Qed.

Lemma to_unsigned_le z : 0 ≤ z → to_unsigned z ≤ z.
Proof. intros Hz. unfold to_unsigned. apply Z.mod_le; [done | by vm_compute]. Qed.

Lemma size_fits SS : fits_size_t SS → size SS = Z.of_nat (length SS).
Proof. intros HSS. unfold size. apply to_size_t_small. unfold fits_size_t in HSS. lia. Qed.

Lemma fits_size_t_app_l SS text : fits_size_t (SS ++ text) → fits_size_t SS.
Proof. unfold fits_size_t. rewrite length_app. lia. Qed.

(** What a [size_t] length comes to when the text is appended to an arena
    that still fits. *)
Lemma written_length SS text :
  fits_size_t (SS ++ text) →
  to_size_t (size (write SS text) - size SS) = Z.of_nat (length text).
Proof.
  intros Hfit. unfold write.
  rewrite (size_fits _ Hfit), (size_fits _ (fits_size_t_app_l _ _ Hfit)).
  rewrite length_app. unfold fits_size_t in Hfit. rewrite length_app in Hfit.
  rewrite to_size_t_small; lia.
Qed.

Lemma substr_middle pre text post :
  substr (pre ++ text ++ post) (Z.of_nat (length pre)) (Z.of_nat (length text))
  = Some text.
Proof.
  unfold substr. rewrite bool_decide_eq_true_2.
  - rewrite !Nat2Z.id, drop_app_length, take_app_length. done.
  - rewrite !length_app. lia.
Qed.

Lemma str_insert (m : Memory) b SS r :
  Base r = b → str (<[b := SS]> m) r = substr SS (Begin r) (Length r).
Proof. intros <-. unfold str. by rewrite lookup_insert_eq. Qed.

Lemma str_dead (m : Memory) r : m !! Base r = None → str m r = None.
Proof. intros Hr. unfold str. by rewrite Hr. Qed.

(** Reading the first bytes of an arena that begins with [text]. *)
Lemma substr_prefix (text rest : Text) (k : Z) :
  0 ≤ k ≤ Z.of_nat (length text) →
  substr (text ++ rest) 0 k = Some (take (Z.to_nat k) text).
Proof.
  intros Hk. unfold substr. rewrite bool_decide_eq_true_2.
  - change (Z.to_nat 0) with 0%nat. rewrite drop_0, take_app_le by lia. done.
  - rewrite length_app. lia.
Qed.

Lemma substr_in_bounds SS r :
  in_bounds (Z.of_nat (length SS)) r → is_Some (substr SS (Begin r) (Length r)).
Proof.
  intros (? & ? & ?). unfold substr. rewrite bool_decide_eq_true_2 by done.
  by eexists.
Qed.

Lemma resolves_middle (m : Memory) b pre text post :
  resolves (<[b := pre ++ text ++ post]> m)
    (mkStringRef b (Z.of_nat (length pre)) (Z.of_nat (length text))) text.
Proof. split; [|done]. rewrite str_insert by done. apply substr_middle. Qed.

(** A view that reads the empty text has length zero and lies in a live
    buffer: no sentinel stands for it. *)
Lemma resolves_empty (m : Memory) r :
  resolves m r [] → Length r = 0 ∧ is_Some (m !! Base r).
Proof.
  intros [Hstr Hlen]. split; [done|]. unfold str in Hstr.
  destruct (m !! Base r); [by eexists | done].
Qed.

Lemma ordered_weaken lo lo' l hi : lo' ≤ lo → ordered lo l hi → ordered lo' l hi.
Proof. destruct l as [|r l]; simpl; intros; [lia | intuition lia]. Qed.

Lemma ordered_eq lo lo' l hi hi' :
  lo = lo' → hi = hi' → ordered lo l hi → ordered lo' l hi'.
Proof. by intros -> ->. Qed.

Lemma ordered_lo_hi l : ∀ lo hi, ordered lo l hi → lo ≤ hi.
Proof.
  induction l as [|r l IH]; simpl; intros lo hi Hl; [done|].
  destruct Hl as (? & ? & Hl). apply IH in Hl. lia.
Qed.

Lemma ordered_app l1 : ∀ lo mid l2 hi,
  ordered lo l1 mid → ordered mid l2 hi → ordered lo (l1 ++ l2) hi.
Proof.
  induction l1 as [|r l1 IH]; simpl; intros lo mid l2 hi H1 H2.
  - by apply (ordered_weaken mid).
  - destruct H1 as (? & ? & H1). eauto.
Qed.

Lemma ordered_in_bounds l : ∀ lo hi r,
  0 ≤ lo → ordered lo l hi → r ∈ l → in_bounds hi r.
Proof.
  induction l as [|r0 l IH]; intros lo hi r Hlo Hl Hr; [by apply elem_of_nil in Hr|].
  destruct Hl as (? & ? & Hl). apply elem_of_cons in Hr as [->|Hr].
  - apply ordered_lo_hi in Hl. unfold in_bounds. lia.
  - apply (IH (Begin r0 + Length r0)); [lia | done | done].
Qed.

Lemma ordered_after l : ∀ lo hi r, ordered lo l hi → r ∈ l → lo ≤ Begin r.
Proof.
  induction l as [|r0 l IH]; intros lo hi r Hl Hr; [by apply elem_of_nil in Hr|].
  destruct Hl as (? & ? & Hl). apply elem_of_cons in Hr as [->|Hr]; [done|].
  specialize (IH _ _ _ Hl Hr). lia.
Qed.

Lemma ordered_lookup_lt l : ∀ lo hi (i j : nat) r1 r2,
  ordered lo l hi → (i < j)%nat → l !! i = Some r1 → l !! j = Some r2 →
  Begin r1 + Length r1 ≤ Begin r2.
Proof.
  induction l as [|r0 l IH]; intros lo hi i j r1 r2 Hl Hij H1 H2; [done|].
  destruct Hl as (? & ? & Hl). destruct j as [|j]; [lia|]. simpl in H2.
  destruct i as [|i]; simpl in H1.
  - injection H1 as ->. eapply ordered_after; [done|]. by eapply list_elem_of_lookup_2.
  - eapply IH; [done | | done | done]. lia.
Qed.

(** Views laid out in order are pairwise disjoint. *)
Lemma ordered_disjoint l lo hi (i j : nat) r1 r2 :
  ordered lo l hi → i ≠ j → l !! i = Some r1 → l !! j = Some r2 →
  disjoint_spans r1 r2.
Proof.
  intros Hl Hij H1 H2. destruct (decide (i < j)%nat).
  - left. by eapply ordered_lookup_lt.
  - right. eapply ordered_lookup_lt; [done | | done | done]. lia.
Qed.

Lemma resolves_at (m : Memory) b SS pre text post off n :
  SS = pre ++ text ++ post → off = Z.of_nat (length pre) →
  n = Z.of_nat (length text) →
  resolves (<[b := SS]> m) (mkStringRef b off n) text.
Proof. intros -> -> ->. apply resolves_middle. Qed.

(** The two top-level pairs of either emitter; [unsigned] keeps their low
    32 bits. *)
Lemma top_level_pairs (tn usr : Text) :
  fits_size_t (tn ++ usr) →
  let n := Z.of_nat (length tn) in
  let u := Z.of_nat (length usr) in
  to_unsigned (size []) = 0 ∧
  to_unsigned (to_size_t (size (write [] tn) - to_unsigned (size []))) = to_unsigned n ∧
  to_unsigned (size (write [] tn)) = to_unsigned n ∧
  to_unsigned (to_size_t (size (write (write [] tn) usr) - to_unsigned (size (write [] tn))))
  = to_unsigned (n + u - to_unsigned n).
Proof.
  intros Hfit n u. pose proof (fits_size_t_app_l _ _ Hfit) as Hfit1.
  unfold write. rewrite !app_nil_l. rewrite !size_fits by done.
  change (size []) with 0. change (to_unsigned 0) with 0.
  rewrite length_app, Z.sub_0_r. fold n.
  pose proof (to_unsigned_range n). pose proof (to_unsigned_le n).
  unfold fits_size_t in Hfit, Hfit1. rewrite length_app in Hfit.
  rewrite !to_size_t_small by lia.
  split_and!; [done | done | done |]. f_equal. lia.
Qed.

(** They lie in order before the first member, whatever was cut off. *)
Lemma top_level_ordered b (n u : Z) :
  0 ≤ n → 0 ≤ u →
  ordered 0 [mkStringRef b 0 (to_unsigned n);
             mkStringRef b (to_unsigned n) (to_unsigned (n + u - to_unsigned n))]
    (n + u).
Proof.
  intros Hn Hu. pose proof (to_unsigned_range n). pose proof (to_unsigned_le n Hn).
  pose proof (to_unsigned_range (n + u - to_unsigned n)).
  pose proof (to_unsigned_le (n + u - to_unsigned n)).
  cbn. lia.
Qed.

(** They read the type name and the type USR when neither is 4 GiB long. *)
Lemma top_level_resolves (m : Memory) b SS (tn usr rest : Text) :
  fits_unsigned tn → fits_unsigned usr → SS = tn ++ usr ++ rest →
  let n := Z.of_nat (length tn) in
  let u := Z.of_nat (length usr) in
  resolves (<[b := SS]> m) (mkStringRef b 0 (to_unsigned n)) tn ∧
  resolves (<[b := SS]> m)
    (mkStringRef b (to_unsigned n) (to_unsigned (n + u - to_unsigned n))) usr.
Proof.
  intros Hn Hu -> n u. unfold fits_unsigned in Hn, Hu.
  rewrite (to_unsigned_small n) by (unfold n; lia).
  replace (n + u - n) with u by lia.
  rewrite (to_unsigned_small u) by (unfold u; lia).
  split.
  - by apply (resolves_at _ _ _ [] tn (usr ++ rest)).
  - by apply (resolves_at _ _ _ tn usr rest).
Qed.

(** Running a computation of [M] one primitive at a time. *)
Ltac run_M :=
  unfold mbind, mret, M_bind, M_ret, alloca, store, get_mem, emit, dealloc,
    assertion_failed;
  cbn [mem trace].

(** ** The type-context emitter *)

Module TypeContextFacts.
Import SourceKit.TypeContextInfoItem TypeContext TypeContextSpec.
Section Facts.
Context `{Frontend}.

Implicit Types (members : list ValueDecl) (SS : SmallString).

(** The member loop, one iteration at a time. *)
Lemma members_acc ExpectedTy members : ∀ SS acc,
  foldl (λ '(SS, ImplicitMembers) member,
           let '(SS, memberElem) := handleSingleResult_member ExpectedTy SS member in
           (SS, ImplicitMembers ++ [memberElem]))
        (SS, acc) members
  = ((handleSingleResult_members ExpectedTy SS members).1,
     acc ++ (handleSingleResult_members ExpectedTy SS members).2).
Proof.
  unfold handleSingleResult_members.
  induction members as [|member members IH]; intros SS acc; simpl.
  - by rewrite app_nil_r.
  - rewrite (IH _ (acc ++ [_])), (IH _ [_]). simpl. by rewrite <- app_assoc.
Qed.

Lemma members_nil ExpectedTy SS :
  handleSingleResult_members ExpectedTy SS [] = (SS, []).
Proof. done. Qed.

Lemma members_cons ExpectedTy SS member members :
  handleSingleResult_members ExpectedTy SS (member :: members)
  = ((handleSingleResult_members ExpectedTy
        (handleSingleResult_member ExpectedTy SS member).1 members).1,
     (handleSingleResult_member ExpectedTy SS member).2
     :: (handleSingleResult_members ExpectedTy
           (handleSingleResult_member ExpectedTy SS member).1 members).2).
Proof.
  unfold handleSingleResult_members at 1. cbn [foldl].
  destruct (handleSingleResult_member ExpectedTy SS member) as [SS1 memberElem].
  by rewrite members_acc.
Qed.

(** The loop only appends: the arena it leaves is the arena it found followed
    by the texts of the members, whatever their sizes. *)
Lemma member_arena ExpectedTy SS member :
  (handleSingleResult_member ExpectedTy SS member).1
  = SS ++ member_text ExpectedTy member.
Proof. unfold member_text. simpl. unfold write. by rewrite <- !app_assoc. Qed.

Lemma members_arena ExpectedTy members : ∀ SS,
  (handleSingleResult_members ExpectedTy SS members).1
  = SS ++ (members ≫= member_text ExpectedTy).
Proof.
  induction members as [|member members IH]; intros SS.
  - by rewrite members_nil, app_nil_r.
  - rewrite members_cons. cbn [fst]. rewrite IH, member_arena.
    by rewrite <- app_assoc.
Qed.

Lemma members_length ExpectedTy members : ∀ SS,
  length (handleSingleResult_members ExpectedTy SS members).2 = length members.
Proof.
  induction members as [|member members IH]; intros SS; [done|].
  rewrite members_cons. cbn [snd length]. by rewrite IH.
Qed.

(** Records already made are left alone by the rest of the loop, and so are
    the bytes already written. *)
Lemma members_app ExpectedTy members1 members2 SS :
  handleSingleResult_members ExpectedTy SS (members1 ++ members2)
  = ((handleSingleResult_members ExpectedTy
        (handleSingleResult_members ExpectedTy SS members1).1 members2).1,
     (handleSingleResult_members ExpectedTy SS members1).2 ++
     (handleSingleResult_members ExpectedTy
        (handleSingleResult_members ExpectedTy SS members1).1 members2).2).
Proof.
  unfold handleSingleResult_members at 1. rewrite foldl_app.
  fold (handleSingleResult_members ExpectedTy SS members1).
  destruct (handleSingleResult_members ExpectedTy SS members1) as [SS1 I1].
  by rewrite members_acc.
Qed.

(** While the arena fits a [size_t], the records are the exact layout. *)
Lemma member_exact ExpectedTy SS member :
  fits_size_t (SS ++ member_text ExpectedTy member) →
  (handleSingleResult_member ExpectedTy SS member).2
  = hd (mkMemberInfo 0 0 0 0 0 0 [])
       (layout ExpectedTy (Z.of_nat (length SS)) [member]).
Proof.
  unfold member_text. intros Hfit. simpl.
  rewrite !app_assoc in Hfit.
  pose proof (fits_size_t_app_l _ _ Hfit) as Hfit2.
  pose proof (fits_size_t_app_l _ _ Hfit2) as Hfit1.
  pose proof (fits_size_t_app_l _ _ Hfit1) as Hfit0.
  rewrite !written_length by done. unfold write.
  rewrite !size_fits by done. rewrite !length_app.
  f_equal; lia.
Qed.

Lemma members_exact ExpectedTy members : ∀ SS,
  fits_size_t (SS ++ (members ≫= member_text ExpectedTy)) →
  (handleSingleResult_members ExpectedTy SS members).2
  = layout ExpectedTy (Z.of_nat (length SS)) members.
Proof.
  induction members as [|member members IH]; intros SS Hfit; [done|].
  rewrite members_cons. simpl in Hfit. rewrite app_assoc in Hfit.
  cbn [snd layout]. rewrite member_exact by by eapply fits_size_t_app_l.
  rewrite member_arena, IH by done. cbn [hd layout]. f_equal.
  unfold member_text. rewrite !length_app. f_equal. lia.
Qed.

(** The views made from records. *)
Lemma layout_records ExpectedTy (m : Memory) b SS members : ∀ pre post start,
  SS = pre ++ (members ≫= member_text ExpectedTy) ++ post →
  start = Z.of_nat (length pre) →
  Forall2 (member_record ExpectedTy (<[b := SS]> m)) members
    (toMember b <$> layout ExpectedTy start members).
Proof.
  induction members as [|member members IH]; intros pre post start HSS Hstart;
    [by constructor|].
  cbn [layout fmap list_fmap]. cbn [mbind list_bind] in HSS.
  unfold member_text in HSS. constructor.
  - unfold member_record, toMember; cbn. split_and!; [| | |done].
    + eapply (resolves_at _ _ _ pre); [|done..]. rewrite HSS.
      by rewrite <- !app_assoc.
    + eapply (resolves_at _ _ _ (pre ++ getFullName_print member)); [| |done].
      * rewrite HSS. by rewrite <- !app_assoc.
      * rewrite length_app. lia.
    + eapply (resolves_at _ _ _
        (pre ++ getFullName_print member ++
         printMemberDeclDescription member ExpectedTy false)); [| |done].
      * rewrite HSS. by rewrite <- !app_assoc.
      * rewrite !length_app. lia.
  - eapply (IH (pre ++ member_text ExpectedTy member) post).
    + rewrite HSS. unfold member_text. by rewrite <- !app_assoc.
    + unfold member_text. rewrite !length_app. lia.
Qed.

Lemma layout_ordered ExpectedTy b members : ∀ start,
  ordered start
    ((toMember b <$> layout ExpectedTy start members) ≫=
       (λ m, [Name m; Description m; SourceText m]))
    (start + Z.of_nat (length (members ≫= member_text ExpectedTy))).
Proof.
  induction members as [|member members IH]; intros start; [simpl; lia|].
  simpl. split_and!; try lia.
  eapply ordered_eq; [reflexivity | | apply IH].
  unfold member_text, mbind. rewrite !length_app. lia.
Qed.

(** The locals [handleSingleResult] has when its member loop ends. *)
Lemma print_eq (Item : ide.TypeContextInfoItem) :
  let ty := ide.ExpectedTy Item in
  let loop := handleSingleResult_members ty
                (write (write [] (Type_print ty)) (printTypeUSR ty))
                (ide.ImplicitMembers Item) in
  handleSingleResult_print Item
  = mkLocals loop.1 (to_unsigned (size []))
      (to_unsigned (to_size_t (size (write [] (Type_print ty)) - to_unsigned (size []))))
      (to_unsigned (size (write [] (Type_print ty))))
      (to_unsigned (to_size_t
         (size (write (write [] (Type_print ty)) (printTypeUSR ty))
          - to_unsigned (size (write [] (Type_print ty))))))
      loop.2.
Proof.
  intros ty loop. unfold handleSingleResult_print. fold ty. fold loop.
  by destruct loop.
Qed.

Lemma print_arena (Item : ide.TypeContextInfoItem) :
  SS (handleSingleResult_print Item)
  = Type_print (ide.ExpectedTy Item) ++ printTypeUSR (ide.ExpectedTy Item) ++
    (ide.ImplicitMembers Item ≫= member_text (ide.ExpectedTy Item)).
Proof.
  rewrite print_eq. cbn [SS]. rewrite members_arena. unfold write.
  by rewrite app_nil_l, <- app_assoc.
Qed.

Lemma print_members (Item : ide.TypeContextInfoItem) :
  fits_size_t (SS (handleSingleResult_print Item)) →
  TypeContext.ImplicitMembers (handleSingleResult_print Item)
  = layout (ide.ExpectedTy Item)
      (Z.of_nat (length (Type_print (ide.ExpectedTy Item) ++
                         printTypeUSR (ide.ExpectedTy Item))))
      (ide.ImplicitMembers Item).
Proof.
  rewrite print_arena, print_eq. cbn [TypeContext.ImplicitMembers]. intros Hfit.
  unfold write. rewrite app_nil_l. apply members_exact. by rewrite <- app_assoc.
Qed.

(** The two top-level pairs; [unsigned] keeps their low 32 bits. *)
Lemma print_top (Item : ide.TypeContextInfoItem) :
  fits_size_t (SS (handleSingleResult_print Item)) →
  let n := Z.of_nat (length (Type_print (ide.ExpectedTy Item))) in
  let u := Z.of_nat (length (printTypeUSR (ide.ExpectedTy Item))) in
  TypeNameBegin (handleSingleResult_print Item) = 0 ∧
  TypeNameLength (handleSingleResult_print Item) = to_unsigned n ∧
  TypeUSRBegin (handleSingleResult_print Item) = to_unsigned n ∧
  TypeUSRLength (handleSingleResult_print Item) = to_unsigned (n + u - to_unsigned n).
Proof.
  rewrite print_arena. intros Hfit n u. rewrite print_eq.
  cbn [TypeNameBegin TypeNameLength TypeUSRBegin TypeUSRLength].
  rewrite app_assoc in Hfit. apply fits_size_t_app_l in Hfit as Hfit2.
  apply fits_size_t_app_l in Hfit2 as Hfit1.
  unfold write. rewrite !app_nil_l. rewrite !size_fits by done.
  change (size []) with 0. change (to_unsigned 0) with 0.
  rewrite length_app, Z.sub_0_r. fold n.
  pose proof (to_unsigned_range n). pose proof (to_unsigned_le n).
  unfold fits_size_t in Hfit1, Hfit2. rewrite length_app in Hfit2.
  rewrite !to_size_t_small by lia.
  split_and!; [done | done | done |]. f_equal. lia.
Qed.

(** One call of [handleSingleResult]: it returns, the consumer has been
    called once with views into a buffer that was not alive before, and the
    memory is what it was. *)
Lemma handleSingleResult_run (Item : ide.TypeContextInfoItem) (w : World) :
  let b := fresh (dom (mem w)) in
  let L := handleSingleResult_print Item in
  handleSingleResult Item w
  = Ok tt (mkWorld (mem w)
             (trace w ++ [TypeContextInfoConsumer_handleResult
                            (<[b := SS L]> (mem w)) (handleSingleResult_Info b L)])).
Proof.
  intros b L. unfold handleSingleResult, SKConsumer_handleResult.
  run_M. fold b. f_equal. f_equal.
  - rewrite insert_insert_eq. apply delete_insert_id.
    apply not_elem_of_dom. apply is_fresh.
  - by rewrite insert_insert_eq.
Qed.

End Facts.
End TypeContextFacts.

(** ** The conforming-method emitter *)

Module ConformingMethodsFacts.
Import SourceKit.ConformingMethodListResult ConformingMethods ConformingMethodsSpec.
Section Facts.
Context `{Frontend}.

Implicit Types (members : list ValueDecl) (SS : SmallString)
  (Result : ide.ConformingMethodListResult).

(** The two casts succeed exactly on methods with a function type. *)
Lemma resultTy_Some Result member rty :
  resultTy Result member = Some rty ↔
  ∃ FT, method_with_type Result member FT ∧ rty = getResult FT.
Proof.
  unfold resultTy, method_with_type. split.
  - destruct (dyn_cast_FuncDecl member) as [FD|]; [|done]. cbn.
    destruct (getAs_FunctionType _) as [FT|] eqn:EFT; [|done]. cbn.
    intros [= <-]. exists FT. split; [|done]. by exists FD.
  - intros (FT & (FD & -> & HFT) & ->). cbn. by rewrite HFT.
Qed.

Lemma resultTy_None Result member :
  resultTy Result member = None ↔ ¬ ∃ FT, method_with_type Result member FT.
Proof.
  split.
  - intros Hn (FT & HFT).
    assert (resultTy Result member = Some (getResult FT)) as Hs
      by (apply resultTy_Some; eauto).
    congruence.
  - intros Hn. destruct (resultTy Result member) as [rty|] eqn:E; [|done].
    apply resultTy_Some in E as (FT & HFT & _). destruct Hn. eauto.
Qed.

(** One iteration of the member loop. *)
Lemma member_Some Result SS member rty :
  resultTy Result member = Some rty →
  ∃ memberElem,
    handleResult_member Result SS member
      = Some (SS ++ member_text Result member rty, memberElem) ∧
    BriefComment memberElem = resolveDocBrief member ∧
    (fits_size_t (SS ++ member_text Result member rty) →
     memberElem = exact_record Result SS member rty).
Proof.
  intros Hty. unfold handleResult_member. rewrite Hty. cbn [mbind option_bind].
  eexists. split_and!.
  - apply f_equal. apply (f_equal2 pair); [|reflexivity].
    unfold member_text, write. by rewrite <- !app_assoc.
  - done.
  - unfold member_text. intros Hfit. rewrite !app_assoc in Hfit.
    pose proof (fits_size_t_app_l _ _ Hfit) as Hfit4.
    pose proof (fits_size_t_app_l _ _ Hfit4) as Hfit3.
    pose proof (fits_size_t_app_l _ _ Hfit3) as Hfit2.
    pose proof (fits_size_t_app_l _ _ Hfit2) as Hfit1.
    pose proof (fits_size_t_app_l _ _ Hfit1) as Hfit0.
    rewrite !written_length by done. unfold write, exact_record. cbv zeta.
    rewrite !size_fits by done. rewrite !length_app.
    f_equal; lia.
Qed.

Lemma member_None Result SS member :
  resultTy Result member = None → handleResult_member Result SS member = None.
Proof. intros Hty. unfold handleResult_member. by rewrite Hty. Qed.

(** The loop stops at the first member that fails a cast, and at no other. *)
Lemma members_is_Some Result members : ∀ SS acc,
  is_Some (handleResult_members Result SS acc members) ↔
  Forall (λ member, ∃ FT, method_with_type Result member FT) members.
Proof.
  induction members as [|member members IH]; intros SS acc; cbn [handleResult_members].
  - split; [by constructor | by eexists].
  - destruct (resultTy Result member) as [rty|] eqn:Hty.
    + destruct (member_Some Result SS member rty Hty) as (e & -> & _).
      cbn [mbind option_bind]. rewrite IH. split.
      * intros Hall. constructor; [|done].
        apply resultTy_Some in Hty as (FT & ? & _). eauto.
      * by intros [_ Hall]%Forall_cons_1.
    + rewrite member_None by done. cbn. split.
      * by intros [? [=]].
      * intros [Hm _]%Forall_cons_1. by apply resultTy_None in Hty.
Qed.

(** What the loop leaves when it ends: the records it found followed by one
    record for each member, and the arena it found followed by their
    texts; the records are exact while the arena fits a [size_t]. *)
Lemma members_inv Result members : ∀ SS acc SS' Members,
  handleResult_members Result SS acc members = Some (SS', Members) →
  ∃ infos rest,
    Members = acc ++ infos ∧ length infos = length members ∧
    SS' = SS ++ rest ∧
    BriefComment <$> infos = resolveDocBrief <$> members ∧
    (fits_size_t SS' → laid_out Result SS members infos SS').
Proof.
  induction members as [|member members IH]; intros SS acc SS' Members;
    cbn [handleResult_members].
  - intros [= <- <-]. exists [], []. rewrite !app_nil_r.
    split_and!; try done. intros _. constructor.
  - destruct (resultTy Result member) as [rty|] eqn:Hty;
      [|by rewrite member_None].
    destruct (member_Some Result SS member rty Hty) as (e & -> & Hdoc & Hexact).
    cbn [mbind option_bind]. intros Hloop.
    apply IH in Hloop as (infos & rest & -> & Hlen & -> & Hdocs & Hlaid).
    exists (e :: infos), (member_text Result member rty ++ rest).
    split_and!.
    + by rewrite <- app_assoc.
    + cbn. by rewrite Hlen.
    + by rewrite <- app_assoc.
    + cbn [fmap list_fmap]. by rewrite Hdoc, Hdocs.
    + intros Hfit. rewrite Hexact by by eapply fits_size_t_app_l.
      constructor; [done | by apply Hlaid].
Qed.

(** Records already made are left alone by the rest of the loop. *)
Lemma cm_members_app Result members1 members2 : ∀ SS acc,
  handleResult_members Result SS acc (members1 ++ members2)
  = '(SS1, Members1) ← handleResult_members Result SS acc members1;
    handleResult_members Result SS1 Members1 members2.
Proof.
  induction members1 as [|member members1 IH]; intros SS acc; [done|].
  cbn [app handleResult_members].
  destruct (handleResult_member Result SS member) as [[SS1 e]|]; [|done].
  cbn [mbind option_bind]. apply IH.
Qed.

Lemma laid_out_prefix Result SS members infos SS' :
  laid_out Result SS members infos SS' → ∃ rest, SS' = SS ++ rest.
Proof.
  induction 1 as [SS|SS member rty members infos SS' Hty _ [rest ->]].
  - exists []. by rewrite app_nil_r.
  - eexists. by rewrite <- app_assoc.
Qed.

Lemma laid_out_records Result (m : Memory) b SS members infos SS' :
  laid_out Result SS members infos SS' →
  Forall2 (member_record Result (<[b := SS']> m)) members (toMember b <$> infos).
Proof.
  induction 1 as [SS|SS member rty members infos SS' Hty Hlaid IH];
    [by constructor|].
  cbn [fmap list_fmap]. constructor; [|done].
  apply laid_out_prefix in Hlaid as [rest ->].
  apply resultTy_Some in Hty as (FT & HFT & ->).
  exists FT. split; [done|]. unfold toMember, exact_record, member_text; cbn.
  split_and!; [| | | | |done].
  - eapply (resolves_at _ _ _ SS); [|done..]. by rewrite <- !app_assoc.
  - eapply (resolves_at _ _ _ (SS ++ getFullName_print member)); [| |done].
    + by rewrite <- !app_assoc.
    + rewrite !length_app. lia.
  - eapply (resolves_at _ _ _
      (SS ++ getFullName_print member ++ Type_print (getResult FT))); [| |done].
    + by rewrite <- !app_assoc.
    + rewrite !length_app. lia.
  - eapply (resolves_at _ _ _
      (SS ++ getFullName_print member ++ Type_print (getResult FT) ++
       printTypeUSR (getResult FT))); [| |done].
    + by rewrite <- !app_assoc.
    + rewrite !length_app. lia.
  - eapply (resolves_at _ _ _
      (SS ++ getFullName_print member ++ Type_print (getResult FT) ++
       printTypeUSR (getResult FT) ++
       printMemberDeclDescription member (ide.ExprType Result) false)); [| |done].
    + by rewrite <- !app_assoc.
    + rewrite !length_app. lia.
Qed.

Lemma laid_out_ordered Result b SS members infos SS' :
  laid_out Result SS members infos SS' →
  ordered (Z.of_nat (length SS))
    ((toMember b <$> infos) ≫=
       (λ m, [Name m; TypeName m; TypeUSR m; Description m; SourceText m]))
    (Z.of_nat (length SS')).
Proof.
  induction 1 as [SS|SS member rty members infos SS' Hty Hlaid IH]; [simpl; lia|].
  simpl. split_and!; try lia.
  eapply ordered_eq; [| reflexivity | apply IH].
  unfold member_text. rewrite !length_app. lia.
Qed.

(** The locals [handleResult] has when its member loop ends. *)
Lemma print_inv Result L :
  handleResult_print Result = Some L →
  let tn := Type_print (ide.ExprType Result) in
  let usr := printTypeUSR (ide.ExprType Result) in
  handleResult_members Result (tn ++ usr) [] (ide.Members Result)
    = Some (SS L, Members_ L) ∧
  TypeNameBegin_ L = to_unsigned (size []) ∧
  TypeNameLength_ L
    = to_unsigned (to_size_t (size (write [] tn) - to_unsigned (size []))) ∧
  TypeUSRBegin_ L = to_unsigned (size (write [] tn)) ∧
  TypeUSRLength_ L
    = to_unsigned (to_size_t (size (write (write [] tn) usr)
                              - to_unsigned (size (write [] tn)))).
Proof.
  intros HL tn usr. unfold handleResult_print in HL. fold tn usr in HL.
  change (write (write [] tn) usr) with (tn ++ usr) in HL at 2.
  destruct (handleResult_members Result (tn ++ usr) [] (ide.Members Result))
    as [[SS' Members]|]; [|done].
  cbn [mbind option_bind] in HL. by injection HL as <-.
Qed.

Lemma print_is_Some Result :
  is_Some (handleResult_print Result) ↔ members_are_methods Result.
Proof.
  unfold members_are_methods.
  rewrite <- (members_is_Some Result (ide.Members Result)
    (write (write [] (Type_print (ide.ExprType Result)))
       (printTypeUSR (ide.ExprType Result))) []).
  unfold handleResult_print.
  destruct (handleResult_members Result _ [] (ide.Members Result)) as [[SS' I]|].
  - cbn. split; intros _; by eexists.
  - cbn. split; intros [? [=]].
Qed.

(** One call of [handleResult] when no cast fails: it returns, the consumer
    has been called once with views into a buffer that was not alive before,
    and the memory is what it was. *)
Lemma handleResult_run Result L (w : World) :
  handleResult_print Result = Some L →
  let b := fresh (dom (mem w)) in
  handleResult Result w
  = Ok tt (mkWorld (mem w)
             (trace w ++ [ConformingMethodListConsumer_handleResult
                            (<[b := SS L]> (mem w)) (handleResult_SKResult b L)])).
Proof.
  intros HL b. unfold handleResult, SKConsumer_handleResult.
  rewrite HL. run_M. fold b. f_equal. f_equal.
  - rewrite insert_insert_eq. apply delete_insert_id.
    apply not_elem_of_dom. apply is_fresh.
  - by rewrite insert_insert_eq.
Qed.

(** When a cast fails the process stops there; the consumer is not called. *)
Lemma handleResult_abort Result (w : World) :
  handleResult_print Result = None →
  returned (handleResult Result w) = false ∧
  trace (world_of (handleResult Result w)) = trace w.
Proof.
  intros HL. unfold handleResult. rewrite HL. by run_M.
Qed.

End Facts.
End ConformingMethodsFacts.

(** ** Requests *)

Section Requests.
Context `{Frontend}.

Lemma result_events_failed evs : result_events evs → List.filter is_failed evs = [].
Proof.
  induction 1 as [|e evs He _ IH]; [done|]. cbn. rewrite IH. by destruct e.
Qed.

Lemma result_events_parse evs : result_events evs → List.filter is_parse evs = [].
Proof.
  induction 1 as [|e evs He _ IH]; [done|]. cbn. rewrite IH. by destruct e.
Qed.

Lemma result_events_secondPass evs :
  result_events evs → List.filter is_secondPass evs = [].
Proof.
  induction 1 as [|e evs He _ IH]; [done|]. cbn. rewrite IH. by destruct e.
Qed.

(** Every request goes one of the five ways. *)
Lemma request_with_trace secondPass UnresolvedInputFile Offset Args vfsOptions m :
  hands_results_only secondPass →
  request_trace
    (trace (world_of (request_with secondPass UnresolvedInputFile Offset Args
                        vfsOptions (mkWorld m [])))).
Proof.
  intros Hsp. unfold request_with.
  destruct (getFileSystem vfsOptions "") as [[fileSystem|] error];
    [|run_M; apply no_file_system].
  unfold Impl_with. cbv zeta.
  destruct (makeCodeCompletionMemoryBuffer _ _ _) as [newBuffer Offset'].
  destruct (initCompilerInvocation _ _ _ _) as [[[|] Invocation] Error1].
  { run_M. apply invocation_failed. }
  destruct (hasInputs Invocation) eqn:Hinputs; cbn [negb];
    [|run_M; by apply no_inputs].
  destruct (getCompilerInstance _ _ _ _ _) as [[CI|] Error2];
    [|run_M; by apply no_instance].
  run_M. cbn [app].
  destruct (hasPersistentParserState CI) eqn:Hstate; cbn [mem trace app].
  - match goal with |- context [secondPass ?s ?w] =>
      destruct (Hsp s w) as (evs & Htr & Hevs);
      destruct (secondPass s w) as [[] w'|w'] end;
      cbn [world_of trace] in *; [rewrite Htr|rewrite Htr].
    + cbn [trace].
      pose proof (completed Invocation CI evs [removeDiagnosticConsumer_called]
                    Hinputs Hevs (or_intror eq_refl)) as Hc.
      unfold completed_trace in Hc. rewrite Hstate in Hc. cbn [app] in Hc.
      by rewrite <- !app_assoc.
    + pose proof (completed Invocation CI evs [] Hinputs Hevs (or_introl eq_refl)) as Hc.
      unfold completed_trace in Hc. rewrite Hstate, app_nil_r in Hc. exact Hc.
  - match goal with |- context [secondPass ?s ?w] =>
      destruct (Hsp s w) as (evs & Htr & Hevs);
      destruct (secondPass s w) as [[] w'|w'] end;
      cbn [world_of trace] in *; [rewrite Htr|rewrite Htr].
    + cbn [trace].
      pose proof (completed Invocation CI evs [removeDiagnosticConsumer_called]
                    Hinputs Hevs (or_intror eq_refl)) as Hc.
      unfold completed_trace in Hc. rewrite Hstate in Hc. cbn [app] in Hc.
      by rewrite <- !app_assoc.
    + pose proof (completed Invocation CI evs [] Hinputs Hevs (or_introl eq_refl)) as Hc.
      unfold completed_trace in Hc. rewrite Hstate, app_nil_r in Hc. exact Hc.
Qed.

End Requests.

Section SecondPass.
Context `{Frontend}.

Lemma for_each_cons {A} (body : A → M unit) x l w :
  for_each body (x :: l) w
  = match body x w with Ok _ w' => for_each body l w' | Abort w' => Abort w' end.
Proof. done. Qed.

(** [handleResults] calls the consumer once for each item, in the order of
    the items, every time from the same memory. *)
Lemma handleResults_run (Results : list ide.TypeContextInfoItem) : ∀ w,
  TypeContext.handleResults Results w
  = Ok tt (mkWorld (mem w) (trace w ++ (TypeContextSpec.delivery (mem w) <$> Results))).
Proof.
  unfold TypeContext.handleResults.
  induction Results as [|Item Results IH]; intros w.
  - cbn. rewrite app_nil_r. by destruct w.
  - rewrite for_each_cons, TypeContextFacts.handleSingleResult_run, IH.
    cbn [mem trace fmap list_fmap]. by rewrite <- app_assoc.
Qed.

Lemma typeContext_secondPass_run (Rss : list (list ide.TypeContextInfoItem)) : ∀ w,
  for_each TypeContext.handleResults Rss w
  = Ok tt (mkWorld (mem w)
             (trace w ++ (Rss ≫= fmap (TypeContextSpec.delivery (mem w))))).
Proof.
  induction Rss as [|Results Rss IH]; intros w.
  - cbn. rewrite app_nil_r. by destruct w.
  - rewrite for_each_cons, handleResults_run, IH.
    cbn [mem trace mbind list_bind]. by rewrite <- app_assoc.
Qed.

Lemma typeContext_hands_results_only :
  hands_results_only
    (λ State, for_each TypeContext.handleResults (typeContextInfoSecondPass State)).
Proof.
  intros State w. eexists. rewrite typeContext_secondPass_run. split; [done|].
  apply Forall_forall. intros e (Results & He & _)%list_elem_of_bind.
  by apply list_elem_of_fmap in He as (Item & -> & _).
Qed.

(** [handleResult], called for each result in turn, calls the consumer once
    for each of them until a cast fails. *)
Lemma conformingMethods_for_each (Rs : list ide.ConformingMethodListResult) : ∀ w,
  ∃ evs,
    trace (world_of (for_each ConformingMethods.handleResult Rs w)) = trace w ++ evs ∧
    result_events evs.
Proof.
  induction Rs as [|Result Rs IH]; intros w.
  - exists []. rewrite app_nil_r. split; [done | constructor].
  - rewrite for_each_cons.
    destruct (ConformingMethods.handleResult_print Result) as [L|] eqn:HL.
    + rewrite (ConformingMethodsFacts.handleResult_run Result L w HL).
      cbv zeta. match goal with |- context [for_each _ Rs ?w1] =>
        destruct (IH w1) as (evs & -> & Hevs) end.
      cbn [trace]. eexists. rewrite <- app_assoc. split; [done|].
      by apply Forall_cons.
    + destruct (ConformingMethodsFacts.handleResult_abort Result w HL) as [Hr Ht].
      destruct (ConformingMethods.handleResult Result w) as [[] w'|w']; [done|].
      cbn in Ht |- *. exists []. rewrite app_nil_r. split; [done | constructor].
Qed.

Lemma conformingMethods_hands_results_only ExpectedTypeNames :
  hands_results_only
    (λ State, for_each ConformingMethods.handleResult
                (conformingMethodListSecondPass ExpectedTypeNames State)).
Proof. intros State w. apply conformingMethods_for_each. Qed.

(** The two entry points have the common shape. *)
Lemma getExpressionContextInfo_shape UnresolvedInputFile Offset Args vfsOptions :
  TypeContext.getExpressionContextInfo UnresolvedInputFile Offset Args vfsOptions
  = request_with
      (λ State, for_each TypeContext.handleResults (typeContextInfoSecondPass State))
      UnresolvedInputFile Offset Args vfsOptions.
Proof. reflexivity. Qed.

Lemma getConformingMethodList_shape UnresolvedInputFile Offset Args
    ExpectedTypeNames vfsOptions :
  ConformingMethods.getConformingMethodList UnresolvedInputFile Offset Args
    ExpectedTypeNames vfsOptions
  = request_with
      (λ State, for_each ConformingMethods.handleResult
                  (conformingMethodListSecondPass ExpectedTypeNames State))
      UnresolvedInputFile Offset Args vfsOptions.
Proof. reflexivity. Qed.

(** What a request that goes one of the five ways does to its consumer. *)
Lemma request_trace_one_outcome tr : request_trace tr → one_outcome tr.
Proof.
  destruct 1 as [msg|Inv msg|Inv Hin|Inv msg Hin|Inv CI evs tail Hin Hevs Htail].
  - right. split; [done|]. by exists msg.
  - right. split; [done|]. by exists msg.
  - right. split; [done|]. by eexists.
  - right. split; [done|]. by exists msg.
  - left. unfold completed_trace. rewrite !List.filter_app.
    rewrite (result_events_failed evs Hevs).
    destruct (hasPersistentParserState CI); by destruct Htail as [-> | ->].
Qed.

End SecondPass.

(** ** What the type-context emitter hands over *)

Module TypeContextDelivery.
Import SourceKit.TypeContextInfoItem TypeContext TypeContextSpec TypeContextFacts.
Section Delivery.
Context `{Frontend}.

Implicit Types (Item : ide.TypeContextInfoItem) (w : World).

Lemma views_Info b (L : Locals) :
  views (handleSingleResult_Info b L)
  = [mkStringRef b (TypeNameBegin L) (TypeNameLength L);
     mkStringRef b (TypeUSRBegin L) (TypeUSRLength L)] ++
    ((toMember b <$> TypeContext.ImplicitMembers L) ≫=
       (λ m, [Name m; Description m; SourceText m])).
Proof. done. Qed.

Lemma views_Base b (L : Locals) : Forall (λ r, Base r = b) (views (handleSingleResult_Info b L)).
Proof.
  rewrite views_Info. apply Forall_app. split; [by repeat constructor|].
  apply Forall_forall. intros r (skm & Hr & Hskm)%list_elem_of_bind.
  apply list_elem_of_fmap in Hskm as (info & -> & _).
  repeat (apply elem_of_cons in Hr as [->|Hr]; [done|]). by apply elem_of_nil in Hr.
Qed.

(** The member records read back, while the arena fits a [size_t]. *)
Lemma members_records Item (m : Memory) b :
  fits_size_t (SS (handleSingleResult_print Item)) →
  Forall2 (member_record (ide.ExpectedTy Item)
             (<[b := SS (handleSingleResult_print Item)]> m))
    (ide.ImplicitMembers Item)
    (SourceKit.TypeContextInfoItem.ImplicitMembers
       (handleSingleResult_Info b (handleSingleResult_print Item))).
Proof.
  intros Hfit. cbn [handleSingleResult_Info SourceKit.TypeContextInfoItem.ImplicitMembers].
  rewrite print_members by done.
  eapply (layout_records _ _ _ _ _ _ []); [|done].
  rewrite print_arena. by rewrite app_nil_r, <- app_assoc.
Qed.

Lemma delivers_roundtrip_fits Item w :
  fits_unsigned (Type_print (ide.ExpectedTy Item)) →
  fits_unsigned (printTypeUSR (ide.ExpectedTy Item)) →
  fits_size_t (SS (handleSingleResult_print Item)) →
  delivers_roundtrip Item w.
Proof.
  intros Hn Hu Hfit. unfold delivers_roundtrip. rewrite handleSingleResult_run.
  cbn [world_of trace]. eexists _, _. split; [done|].
  destruct (print_top Item Hfit) as (Hb1 & Hl1 & Hb2 & Hl2).
  unfold roundtrip. cbn [handleSingleResult_Info TypeName TypeUSR].
  rewrite Hb1, Hl1, Hb2, Hl2.
  split_and!; [| |by apply members_records];
    eapply top_level_resolves; try done; apply print_arena.
Qed.


(** The type-name view: it begins the arena and is as long as the low 32
    bits of the length of the printed name say. *)
Lemma TypeName_view Item w :
  fits_size_t (SS (handleSingleResult_print Item)) →
  let n := Z.of_nat (length (Type_print (ide.ExpectedTy Item))) in
  let b := fresh (dom (mem w)) in
  let L := handleSingleResult_print Item in
  TypeName (handleSingleResult_Info b L) = mkStringRef b 0 (to_unsigned n) ∧
  str (<[b := SS L]> (mem w)) (TypeName (handleSingleResult_Info b L))
  = Some (take (Z.to_nat (to_unsigned n)) (Type_print (ide.ExpectedTy Item))).
Proof.
  intros Hfit n b L. unfold L.
  cbn [handleSingleResult_Info TypeName].
  destruct (print_top Item Hfit) as (-> & -> & _). fold n. split; [done|].
  rewrite str_insert by done. cbn [Begin Length].
  rewrite print_arena. apply substr_prefix.
  split; [apply to_unsigned_range | apply to_unsigned_le; lia].
Qed.

Lemma views_ordered Item b :
  fits_size_t (SS (handleSingleResult_print Item)) →
  ordered 0 (views (handleSingleResult_Info b (handleSingleResult_print Item)))
    (Z.of_nat (length (SS (handleSingleResult_print Item)))).
Proof.
  intros Hfit. rewrite views_Info.
  destruct (print_top Item Hfit) as (-> & -> & -> & ->).
  rewrite print_members by done. rewrite print_arena.
  eapply ordered_app; [apply top_level_ordered; lia|].
  eapply ordered_eq; [| |apply layout_ordered].
  - rewrite length_app. lia.
  - rewrite !length_app. lia.
Qed.

Lemma spans_sound_fits Item w :
  fits_size_t (SS (handleSingleResult_print Item)) → spans_sound Item w.
Proof.
  intros Hfit. unfold spans_sound. rewrite handleSingleResult_run.
  cbn [world_of trace]. eexists _, _, _. split; [done|].
  pose proof (views_ordered Item (fresh (dom (mem w))) Hfit) as Hord.
  split_and!.
  - intros r Hr. split.
    + by eapply (proj1 (Forall_forall _ _) (views_Base _ _)).
    + by eapply ordered_in_bounds.
  - intros i j r1 r2. by eapply ordered_disjoint.
  - intros members1 members2 Hsplit. cbv zeta.
    rewrite print_eq. cbn [SS handleSingleResult_Info
      SourceKit.TypeContextInfoItem.ImplicitMembers TypeContext.ImplicitMembers].
    rewrite Hsplit, members_app. cbn [fst snd]. split.
    + rewrite (members_arena _ members2). by eexists.
    + rewrite fmap_app. by eexists.
Qed.

Lemma doc_brief_cases_resolve (member : ValueDecl) :
  doc_brief_cases member (resolveDocBrief member).
Proof.
  unfold doc_brief_cases, resolveDocBrief, foreign_comment. split_and!.
  - intros node RC -> HRC. cbn in HRC.
    destruct (getAsDecl node) as [D|]; [|done]. cbn in HRC. by rewrite HRC.
  - by intros ->.
  - destruct (getClangNode member) as [node|]; cbn.
    + intros HRC _. destruct (getAsDecl node) as [D|]; [|done]. cbn in HRC.
      by rewrite HRC.
    + by intros _ [[? [=]]| ->].
Qed.

Lemma member_DocBrief Item b (k : nat) member :
  ide.ImplicitMembers Item !! k = Some member →
  ∃ skm,
    SourceKit.TypeContextInfoItem.ImplicitMembers
      (handleSingleResult_Info b (handleSingleResult_print Item)) !! k = Some skm ∧
    DocBrief skm = resolveDocBrief member.
Proof.
  intros Hk. cbn [handleSingleResult_Info SourceKit.TypeContextInfoItem.ImplicitMembers].
  rewrite print_eq. cbn [TypeContext.ImplicitMembers].
  set (SS0 := write _ _). clearbody SS0.
  revert k SS0 Hk. induction (ide.ImplicitMembers Item) as [|member0 members IH];
    intros k SS0 Hk; [done|].
  rewrite members_cons. cbn [snd fmap list_fmap]. destruct k as [|k].
  - injection Hk as ->. eexists. split; [done|]. done.
  - cbn. by apply IH.
Qed.

End Delivery.
End TypeContextDelivery.

(** ** What the conforming-method emitter hands over *)

Module ConformingMethodsDelivery.
Import SourceKit.ConformingMethodListResult ConformingMethods
  ConformingMethodsSpec ConformingMethodsFacts.
Section Delivery.
Context `{Frontend}.

Implicit Types (Result : ide.ConformingMethodListResult) (w : World) (L : Locals).

Lemma views_SKResult b L :
  views (handleResult_SKResult b L)
  = [mkStringRef b (TypeNameBegin_ L) (TypeNameLength_ L);
     mkStringRef b (TypeUSRBegin_ L) (TypeUSRLength_ L)] ++
    ((toMember b <$> Members_ L) ≫=
       (λ m, [Name m; TypeName m; TypeUSR m; Description m; SourceText m])).
Proof. done. Qed.

Lemma cm_views_Base b L : Forall (λ r, Base r = b) (views (handleResult_SKResult b L)).
Proof.
  rewrite views_SKResult. apply Forall_app. split; [by repeat constructor|].
  apply Forall_forall. intros r (skm & Hr & Hskm)%list_elem_of_bind.
  apply list_elem_of_fmap in Hskm as (info & -> & _).
  repeat (apply elem_of_cons in Hr as [->|Hr]; [done|]). by apply elem_of_nil in Hr.
Qed.

(** The loop of a call whose casts succeed, read off its locals. *)
Lemma print_laid_out Result L :
  handleResult_print Result = Some L →
  let tn := Type_print (ide.ExprType Result) in
  let usr := printTypeUSR (ide.ExprType Result) in
  ∃ rest,
    SS L = tn ++ usr ++ rest ∧
    length (Members_ L) = length (ide.Members Result) ∧
    BriefComment <$> Members_ L = resolveDocBrief <$> ide.Members Result ∧
    (fits_size_t (SS L) →
     laid_out Result (tn ++ usr) (ide.Members Result) (Members_ L) (SS L)).
Proof.
  intros HL tn usr. destruct (print_inv Result L HL) as (Hloop & _).
  apply members_inv in Hloop as (infos & rest & -> & Hlen & -> & Hdocs & Hlaid).
  exists rest. split_and!; [by rewrite <- app_assoc | done..].
Qed.

Lemma cm_print_top Result L :
  handleResult_print Result = Some L → fits_size_t (SS L) →
  let n := Z.of_nat (length (Type_print (ide.ExprType Result))) in
  let u := Z.of_nat (length (printTypeUSR (ide.ExprType Result))) in
  TypeNameBegin_ L = 0 ∧ TypeNameLength_ L = to_unsigned n ∧
  TypeUSRBegin_ L = to_unsigned n ∧
  TypeUSRLength_ L = to_unsigned (n + u - to_unsigned n).
Proof.
  intros HL Hfit n u. destruct (print_inv Result L HL) as (_ & -> & -> & -> & ->).
  destruct (print_laid_out Result L HL) as (rest & HSS & _).
  rewrite HSS, app_assoc in Hfit. apply fits_size_t_app_l in Hfit.
  by apply top_level_pairs.
Qed.

Lemma cm_members_records Result L (m : Memory) b :
  handleResult_print Result = Some L → fits_size_t (SS L) →
  Forall2 (member_record Result (<[b := SS L]> m)) (ide.Members Result)
    (SourceKit.ConformingMethodListResult.Members (handleResult_SKResult b L)).
Proof.
  intros HL Hfit. destruct (print_laid_out Result L HL) as (rest & _ & _ & _ & Hlaid).
  cbn [handleResult_SKResult SourceKit.ConformingMethodListResult.Members].
  eapply laid_out_records. by apply Hlaid.
Qed.

Lemma cm_delivers_roundtrip_fits Result L w :
  handleResult_print Result = Some L →
  fits_unsigned (Type_print (ide.ExprType Result)) →
  fits_unsigned (printTypeUSR (ide.ExprType Result)) →
  fits_size_t (SS L) →
  delivers_roundtrip Result w.
Proof.
  intros HL Hn Hu Hfit. unfold delivers_roundtrip.
  rewrite (handleResult_run Result L w HL). cbn [world_of trace].
  eexists _, _. split; [done|].
  destruct (cm_print_top Result L HL Hfit) as (Hb1 & Hl1 & Hb2 & Hl2).
  destruct (print_laid_out Result L HL) as (rest & HSS & _).
  unfold roundtrip. cbn [handleResult_SKResult TypeName_ TypeUSR_].
  rewrite Hb1, Hl1, Hb2, Hl2.
  split_and!; [| |by apply cm_members_records];
    eapply top_level_resolves; try done.
Qed.

Lemma cm_TypeName_view Result L w :
  handleResult_print Result = Some L → fits_size_t (SS L) →
  let n := Z.of_nat (length (Type_print (ide.ExprType Result))) in
  let b := fresh (dom (mem w)) in
  TypeName_ (handleResult_SKResult b L) = mkStringRef b 0 (to_unsigned n) ∧
  str (<[b := SS L]> (mem w)) (TypeName_ (handleResult_SKResult b L))
  = Some (take (Z.to_nat (to_unsigned n)) (Type_print (ide.ExprType Result))).
Proof.
  intros HL Hfit n b.
  cbn [handleResult_SKResult TypeName_].
  destruct (cm_print_top Result L HL Hfit) as (-> & -> & _). fold n. split; [done|].
  rewrite str_insert by done. cbn [Begin Length].
  destruct (print_laid_out Result L HL) as (rest & -> & _).
  apply substr_prefix.
  split; [apply to_unsigned_range | apply to_unsigned_le; lia].
Qed.

Lemma cm_views_ordered Result L b :
  handleResult_print Result = Some L → fits_size_t (SS L) →
  ordered 0 (views (handleResult_SKResult b L)) (Z.of_nat (length (SS L))).
Proof.
  intros HL Hfit. rewrite views_SKResult.
  destruct (cm_print_top Result L HL Hfit) as (-> & -> & -> & ->).
  destruct (print_laid_out Result L HL) as (rest & _ & _ & _ & Hlaid).
  eapply ordered_app; [apply top_level_ordered; lia|].
  eapply ordered_eq; [| |eapply laid_out_ordered, (Hlaid Hfit)]; [|done].
  by rewrite length_app, Nat2Z.inj_add.
Qed.

Lemma cm_spans_sound_fits Result L w :
  handleResult_print Result = Some L → fits_size_t (SS L) → spans_sound Result w.
Proof.
  intros HL Hfit. unfold spans_sound. rewrite (handleResult_run Result L w HL).
  cbn [world_of trace]. eexists _, _, _. split; [done|].
  pose proof (cm_views_ordered Result L (fresh (dom (mem w))) HL Hfit) as Hord.
  split_and!.
  - intros r Hr. split.
    + by eapply (proj1 (Forall_forall _ _) (cm_views_Base _ _)).
    + by eapply ordered_in_bounds.
  - intros i j r1 r2. by eapply ordered_disjoint.
  - intros members1 members2 Hsplit. cbv zeta.
    destruct (print_inv Result L HL) as (Hloop & _).
    rewrite Hsplit, cm_members_app in Hloop.
    change (write (write [] ?a) ?b) with (a ++ b).
    destruct (handleResult_members Result _ [] members1) as [[SS1 Members1]|];
      [|done].
    cbn [mbind option_bind] in Hloop.
    apply members_inv in Hloop as (infos & rest & HM & _ & HSS & _).
    exists SS1, Members1. split; [done|].
    cbn [handleResult_SKResult SourceKit.ConformingMethodListResult.Members].
    rewrite HM, HSS, fmap_app. split; by eexists.
Qed.

Lemma cm_member_DocBrief Result L b (k : nat) member :
  handleResult_print Result = Some L →
  ide.Members Result !! k = Some member →
  ∃ skm,
    SourceKit.ConformingMethodListResult.Members (handleResult_SKResult b L) !! k
      = Some skm ∧
    DocBrief skm = resolveDocBrief member.
Proof.
  intros HL Hk. destruct (print_laid_out Result L HL) as (rest & _ & Hlen & Hdocs & _).
  cbn [handleResult_SKResult SourceKit.ConformingMethodListResult.Members].
  destruct (lookup_lt_is_Some_2 (Members_ L) k) as [info Hinfo].
  { rewrite Hlen. by eapply lookup_lt_Some. }
  exists (toMember b info). rewrite list_lookup_fmap, Hinfo. split; [done|].
  apply (f_equal (.!! k)) in Hdocs. rewrite !list_lookup_fmap, Hinfo, Hk in Hdocs.
  cbn in Hdocs. by injection Hdocs.
Qed.

End Delivery.
End ConformingMethodsDelivery.

(** ** The arena a result borrows *)

Section BorrowedFacts.
Context `{Frontend}.

Lemma conformingMethods_members_arena Result (members : list ValueDecl) :
  ∀ SS acc SS' Members,
    ConformingMethods.handleResult_members Result SS acc members
      = Some (SS', Members) →
    SS' = SS ++ conformingMethods_texts Result members.
Proof.
  induction members as [|member members IH]; intros SS acc SS' Members;
    cbn [ConformingMethods.handleResult_members].
  - intros [= <- <-]. by rewrite app_nil_r.
  - destruct (ConformingMethods.resultTy Result member) as [rty|] eqn:Hty;
      [|by rewrite ConformingMethodsFacts.member_None].
    destruct (ConformingMethodsFacts.member_Some Result SS member rty Hty)
      as (e & -> & _).
    cbn [mbind option_bind]. intros ->%IH.
    unfold conformingMethods_texts. cbn [mbind list_bind]. rewrite Hty.
    by rewrite <- app_assoc.
Qed.

Lemma conformingMethods_print_arena (Result : ide.ConformingMethodListResult) L :
  ConformingMethods.handleResult_print Result = Some L →
  ConformingMethods.SS L = conformingMethods_result_texts Result.
Proof.
  intros HL. destruct (ConformingMethodsFacts.print_inv Result L HL) as (Hloop & _).
  apply conformingMethods_members_arena in Hloop. rewrite Hloop.
  unfold conformingMethods_result_texts. by rewrite <- app_assoc.
Qed.

(** Views into a fresh buffer, laid out one after the other inside the
    arena, are borrowed. *)
Lemma views_borrow_ordered (m : Memory) arena vs :
  let b := fresh (dom m) in
  Forall (λ r, Base r = b) vs →
  (fits_size_t arena → ordered 0 vs (Z.of_nat (length arena))) →
  views_borrow m (<[b := arena]> m) b arena vs.
Proof.
  intros b Hbase Hord.
  assert (m !! b = None) as Hdead by (apply not_elem_of_dom, is_fresh).
  split_and!; [done | done | done | |].
  - intros Hfit. apply Forall_forall. intros r Hr.
    assert (in_bounds (Z.of_nat (length arena)) r) as Hin
      by (eapply ordered_in_bounds; [|by apply Hord|done]; lia).
    split; [done|]. rewrite str_insert by by eapply (proj1 (Forall_forall _ _) Hbase).
    by apply substr_in_bounds.
  - eapply Forall_impl; [exact Hbase|]. intros r Hr. cbn in Hr.
    apply str_dead. by rewrite Hr.
Qed.

Lemma typeContext_arena_borrowed_always (Item : ide.TypeContextInfoItem) w :
  typeContext_arena_borrowed Item w.
Proof.
  unfold typeContext_arena_borrowed. rewrite TypeContextFacts.handleSingleResult_run.
  eexists _, _, _. split; [done|].
  pose proof (TypeContextFacts.print_arena Item) as Harena.
  fold (typeContext_texts Item) in Harena. rewrite Harena.
  apply views_borrow_ordered; [apply TypeContextDelivery.views_Base|].
  intros Hfit. rewrite <- Harena in Hfit |- *.
  by apply TypeContextDelivery.views_ordered.
Qed.

Lemma conformingMethods_arena_borrowed_methods
    (Result : ide.ConformingMethodListResult) w :
  ConformingMethodsSpec.members_are_methods Result →
  conformingMethods_arena_borrowed Result w.
Proof.
  intros [L HL]%ConformingMethodsFacts.print_is_Some.
  unfold conformingMethods_arena_borrowed.
  rewrite (ConformingMethodsFacts.handleResult_run Result L w HL).
  eexists _, _, _. split; [done|].
  pose proof (conformingMethods_print_arena Result L HL) as Harena. rewrite Harena.
  apply views_borrow_ordered; [apply ConformingMethodsDelivery.cm_views_Base|].
  intros Hfit. rewrite <- Harena in Hfit |- *.
  by apply (ConformingMethodsDelivery.cm_views_ordered Result L).
Qed.

End BorrowedFacts.

(** ** Requests seen from the consumer and from the engine *)

Section RequestProperties.
Context `{Frontend}.

Lemma result_events_not_initCompilerInvocation evs Failed Invocation :
  result_events evs → ¬ In (initCompilerInvocation_returned Failed Invocation) evs.
Proof.
  intros Hevs Hin. apply list_elem_of_In in Hin.
  by apply (proj1 (Forall_forall _ _) Hevs) in Hin.
Qed.

Lemma result_events_not_getCompilerInstance evs CI :
  result_events evs → ¬ In (getCompilerInstance_returned CI) evs.
Proof.
  intros Hevs Hin. apply list_elem_of_In in Hin.
  by apply (proj1 (Forall_forall _ _) Hevs) in Hin.
Qed.

(** A request whose invocation was made and has no inputs fails with the
    fixed message, and does nothing else to its consumer. *)
Lemma request_trace_no_inputs tr Invocation :
  request_trace tr →
  In (initCompilerInvocation_returned false Invocation) tr →
  hasInputs Invocation = false →
  consumer_calls tr = [Consumer_failed "no input filenames specified"].
Proof.
  destruct 1 as [msg|Inv msg|Inv Hin|Inv msg Hin|Inv CI evs tail Hin Hevs Htail];
    intros Hev Hno.
  - by destruct Hev as [[=]|[]].
  - by destruct Hev as [[=]|[[=]|[]]].
  - done.
  - destruct Hev as [[= ->]|[[=]|[[=]|[]]]]. congruence.
  - unfold completed_trace in Hev. rewrite !in_app_iff in Hev.
    destruct Hev as [Hev|[Hev|[Hev|[Hev|Hev]]]].
    + destruct Hev as [[= ->]|[[=]|[]]]. congruence.
    + destruct (hasPersistentParserState CI); [done|]. by destruct Hev as [[=]|[]].
    + by destruct Hev as [[=]|[]].
    + by apply result_events_not_initCompilerInvocation in Hev.
    + destruct Htail as [-> | ->]; [done|]. by destruct Hev as [[=]|[]].
Qed.

(** What the engine is asked to do once the instance [CI] is acquired, and
    that it is asked to parse in no other request. *)
Lemma request_trace_parse tr :
  request_trace tr →
  (∀ CI, In (getCompilerInstance_returned (Some CI)) tr →
     List.filter is_parse tr
       = (if hasPersistentParserState CI then []
          else [performParseAndResolveImportsOnly_called CI]) ∧
     List.filter is_secondPass tr
       = [performCodeCompletionSecondPass_called
            (getPersistentParserState
               (if hasPersistentParserState CI then CI
                else performParseAndResolveImportsOnly CI))]) ∧
  (List.filter is_parse tr ≠ [] →
   ∃ CI, In (getCompilerInstance_returned (Some CI)) tr ∧
         hasPersistentParserState CI = false).
Proof.
  destruct 1 as [msg|Inv msg|Inv Hin|Inv msg Hin|Inv CI evs tail Hin Hevs Htail].
  - split; [|done]. intros CI Hev. by destruct Hev as [[=]|[]].
  - split; [|done]. intros CI Hev. by destruct Hev as [[=]|[[=]|[]]].
  - split; [|done]. intros CI Hev. by destruct Hev as [[=]|[[=]|[]]].
  - split; [|done]. intros CI Hev. by destruct Hev as [[=]|[[=]|[[=]|[]]]].
  - assert (List.filter is_parse tail = [] ∧ List.filter is_secondPass tail = [])
      as [Htp Hts] by (by destruct Htail as [-> | ->]).
    split.
    + intros CI' Hev. unfold completed_trace in Hev |- *.
      assert (CI' = CI) as ->.
      { rewrite !in_app_iff in Hev.
        destruct Hev as [Hev|[Hev|[Hev|[Hev|Hev]]]].
        - by destruct Hev as [[=]|[[= ->]|[]]].
        - destruct (hasPersistentParserState CI); [done|]. by destruct Hev as [[=]|[]].
        - by destruct Hev as [[=]|[]].
        - by apply result_events_not_getCompilerInstance in Hev.
        - destruct Htail as [-> | ->]; [done|]. by destruct Hev as [[=]|[]]. }
      rewrite !List.filter_app, Htp, Hts.
      rewrite (result_events_parse evs Hevs), (result_events_secondPass evs Hevs).
      by destruct (hasPersistentParserState CI).
    + intros Hparse. exists CI. split; [unfold completed_trace; cbn; tauto|].
      destruct (hasPersistentParserState CI) eqn:Hstate; [|done].
      destruct Hparse. unfold completed_trace.
      rewrite !List.filter_app, Htp, (result_events_parse evs Hevs), Hstate. done.
Qed.

(** C3. Every call of [getExpressionContextInfo] or of
    [getConformingMethodList] gives its consumer either results (none, one or
    several) and no failure, or exactly one failure, with its message, and
    no result: never a result and a failure in one request.  This holds
    also for a request that stops at a failed cast. *)
Theorem one_outcome_per_request UnresolvedInputFile Offset Args
    ExpectedTypeNames vfsOptions (m : Memory) :
  one_outcome
    (trace (world_of (TypeContext.getExpressionContextInfo UnresolvedInputFile
                        Offset Args vfsOptions (mkWorld m [])))) ∧
  one_outcome
    (trace (world_of (ConformingMethods.getConformingMethodList UnresolvedInputFile
                        Offset Args ExpectedTypeNames vfsOptions (mkWorld m [])))).
Proof.
  split; apply request_trace_one_outcome.
  - rewrite getExpressionContextInfo_shape.
    apply request_with_trace, typeContext_hands_results_only.
  - rewrite getConformingMethodList_shape.
    apply request_with_trace, conformingMethods_hands_results_only.
Qed.

(** C7. When the compiler invocation made from the arguments of a request
    has no input file, the consumer's failure handler is called once, with
    the message "no input filenames specified", and its result handler is
    not called: these are all the calls the consumer gets.  "The invocation
    was made" reads: [initCompilerInvocation] returned it and did not
    fail. *)
Theorem no_input_files_fails UnresolvedInputFile Offset Args ExpectedTypeNames
    vfsOptions (m : Memory) Invocation :
  hasInputs Invocation = false →
  let typeContext :=
    trace (world_of (TypeContext.getExpressionContextInfo UnresolvedInputFile
                       Offset Args vfsOptions (mkWorld m []))) in
  let conformingMethods :=
    trace (world_of (ConformingMethods.getConformingMethodList UnresolvedInputFile
                       Offset Args ExpectedTypeNames vfsOptions (mkWorld m []))) in
  (In (initCompilerInvocation_returned false Invocation) typeContext →
   consumer_calls typeContext = [Consumer_failed "no input filenames specified"]) ∧
  (In (initCompilerInvocation_returned false Invocation) conformingMethods →
   consumer_calls conformingMethods = [Consumer_failed "no input filenames specified"]).
Proof.
  intros Hno typeContext conformingMethods.
  split; intros Hev; (eapply request_trace_no_inputs; [|exact Hev|exact Hno]).
  - unfold typeContext. rewrite getExpressionContextInfo_shape.
    apply request_with_trace, typeContext_hands_results_only.
  - unfold conformingMethods. rewrite getConformingMethodList_shape.
    apply request_with_trace, conformingMethods_hands_results_only.
Qed.

(** C8. In every request the parse-and-resolve-imports-only pass is run
    exactly when an instance was acquired that has no persistent parser
    state: once for such an instance, not at all for an instance that has
    the state, and not at all when no instance was acquired.  Whenever an
    instance was acquired the second pass is run, once, on the parser state
    the instance then has. *)
Theorem parse_only_without_parser_state UnresolvedInputFile Offset Args
    ExpectedTypeNames vfsOptions (m : Memory) :
  let parse_as_needed (tr : list Event) :=
    (∀ CI, In (getCompilerInstance_returned (Some CI)) tr →
       List.filter is_parse tr
         = (if hasPersistentParserState CI then []
            else [performParseAndResolveImportsOnly_called CI]) ∧
       List.filter is_secondPass tr
         = [performCodeCompletionSecondPass_called
              (getPersistentParserState
                 (if hasPersistentParserState CI then CI
                  else performParseAndResolveImportsOnly CI))]) ∧
    (List.filter is_parse tr ≠ [] →
     ∃ CI, In (getCompilerInstance_returned (Some CI)) tr ∧
           hasPersistentParserState CI = false) in
  parse_as_needed
    (trace (world_of (TypeContext.getExpressionContextInfo UnresolvedInputFile
                        Offset Args vfsOptions (mkWorld m [])))) ∧
  parse_as_needed
    (trace (world_of (ConformingMethods.getConformingMethodList UnresolvedInputFile
                        Offset Args ExpectedTypeNames vfsOptions (mkWorld m [])))).
Proof.
  intros parse_as_needed. split; apply request_trace_parse.
  - rewrite getExpressionContextInfo_shape.
    apply request_with_trace, typeContext_hands_results_only.
  - rewrite getConformingMethodList_shape.
    apply request_with_trace, conformingMethods_hands_results_only.
Qed.

End RequestProperties.

(** ** The results handed to the consumer *)

Section ResultProperties.
Context `{Frontend}.

(** X11. Where the code keeps the round trip.  Every text printed into the
    arena of a result is read back, byte for byte, through the view handed
    to the consumer, and an empty text through a view of length zero into
    the live arena, provided the printed type name and the printed type USR
    are each shorter than 2^32 bytes: the offsets and lengths of these two
    are kept in [unsigned] variables, those of the members' texts in
    [size_t] ones, for which no such bound is needed.  (The arena as a whole
    is taken to have a size that [SS.size()], a [size_t], can return.)  For
    [handleResult] the casts of its member loop are taken to succeed. *)
Theorem roundtrip_below_4GiB :
  (∀ (Item : ide.TypeContextInfoItem) (w : World),
     fits_unsigned (Type_print (ide.ExpectedTy Item)) →
     fits_unsigned (printTypeUSR (ide.ExpectedTy Item)) →
     fits_size_t (TypeContext.SS (TypeContext.handleSingleResult_print Item)) →
     TypeContextSpec.delivers_roundtrip Item w) ∧
  (∀ (Result : ide.ConformingMethodListResult) L (w : World),
     ConformingMethods.handleResult_print Result = Some L →
     fits_unsigned (Type_print (ide.ExprType Result)) →
     fits_unsigned (printTypeUSR (ide.ExprType Result)) →
     fits_size_t (ConformingMethods.SS L) →
     ConformingMethodsSpec.delivers_roundtrip Result w) ∧
  (∀ (m : Memory) r, resolves m r [] → Length r = 0 ∧ is_Some (m !! Base r)).
Proof.
  split_and!.
  - apply TypeContextDelivery.delivers_roundtrip_fits.
  - apply ConformingMethodsDelivery.cm_delivers_roundtrip_fits.
  - apply resolves_empty.
Qed.

(** C2. Every view of a result lies inside the finished arena (offset +
    length is at most its size), no two views overlap, and a pair once
    recorded is the pair handed over: at every point of the member loop the
    records made so far are the first records of the result and the arena
    so far is the beginning of the finished arena, every print appending at
    its end.  The arena is taken to have a size that [SS.size()], a
    [size_t], can return; for [handleResult] the casts of its member loop
    are taken to succeed. *)
Theorem spans_inside_apart_and_fixed :
  (∀ (Item : ide.TypeContextInfoItem) (w : World),
     fits_size_t (TypeContext.SS (TypeContext.handleSingleResult_print Item)) →
     TypeContextSpec.spans_sound Item w) ∧
  (∀ (Result : ide.ConformingMethodListResult) L (w : World),
     ConformingMethods.handleResult_print Result = Some L →
     fits_size_t (ConformingMethods.SS L) →
     ConformingMethodsSpec.spans_sound Result w).
Proof.
  split.
  - apply TypeContextDelivery.spans_sound_fits.
  - apply ConformingMethodsDelivery.cm_spans_sound_fits.
Qed.

(** C4. The brief documentation of the k-th member of a result is settled by
    three cases: for a member with a Clang node whose declaration has a raw
    comment, it is the brief text of that comment; for a member with no
    Clang node, it is the member's own brief comment; and it is empty when
    neither source has documentation (no comment is found through the Clang
    node, and either the member has a Clang node or its own brief comment is
    empty).  No case stops the emitter or makes a failure: the call returns
    having called the result handler once. *)
Theorem doc_brief_three_cases :
  (∀ (Item : ide.TypeContextInfoItem) (w : World) (k : nat) member,
     ide.ImplicitMembers Item !! k = Some member →
     ∃ m Info skm,
       TypeContext.handleSingleResult Item w
         = Ok tt (mkWorld (mem w)
                    (trace w ++ [TypeContextInfoConsumer_handleResult m Info])) ∧
       SourceKit.TypeContextInfoItem.ImplicitMembers Info !! k = Some skm ∧
       doc_brief_cases member (SourceKit.TypeContextInfoItem.DocBrief skm)) ∧
  (∀ (Result : ide.ConformingMethodListResult) L (w : World) (k : nat) member,
     ConformingMethods.handleResult_print Result = Some L →
     ide.Members Result !! k = Some member →
     ∃ m SKResult skm,
       ConformingMethods.handleResult Result w
         = Ok tt (mkWorld (mem w)
                    (trace w ++ [ConformingMethodListConsumer_handleResult m SKResult])) ∧
       SourceKit.ConformingMethodListResult.Members SKResult !! k = Some skm ∧
       doc_brief_cases member (SourceKit.ConformingMethodListResult.DocBrief skm)).
Proof.
  split.
  - intros Item w k member Hk.
    destruct (TypeContextDelivery.member_DocBrief Item (fresh (dom (mem w))) k member Hk)
      as (skm & Hskm & Hdoc).
    eexists _, _, skm. rewrite TypeContextFacts.handleSingleResult_run.
    split_and!; [done | done |]. rewrite Hdoc.
    apply TypeContextDelivery.doc_brief_cases_resolve.
  - intros Result L w k member HL Hk.
    destruct (ConformingMethodsDelivery.cm_member_DocBrief Result L
                (fresh (dom (mem w))) k member HL Hk) as (skm & Hskm & Hdoc).
    eexists _, _, skm. rewrite (ConformingMethodsFacts.handleResult_run Result L w HL).
    split_and!; [done | done |]. rewrite Hdoc.
    apply TypeContextDelivery.doc_brief_cases_resolve.
Qed.

(** C5. For the k-th member of a conforming-method result, the type name and
    the type USR handed over are the prints of the result type of the
    member's method interface type once [getTypeOfMember] has put the
    expression type in as its base, not of the result of the declared
    interface type: when the declared one prints differently, it is not what
    the view reads.  The arena is taken to have a size [SS.size()] can
    return. *)
Theorem result_type_is_substituted (Result : ide.ConformingMethodListResult) L
    (w : World) (k : nat) member :
  ConformingMethods.handleResult_print Result = Some L →
  fits_size_t (ConformingMethods.SS L) →
  ide.Members Result !! k = Some member →
  ∃ m SKResult skm FD FT,
    ConformingMethods.handleResult Result w
      = Ok tt (mkWorld (mem w)
                 (trace w ++ [ConformingMethodListConsumer_handleResult m SKResult])) ∧
    SourceKit.ConformingMethodListResult.Members SKResult !! k = Some skm ∧
    dyn_cast_FuncDecl member = Some FD ∧
    getAs_FunctionType
      (getTypeOfMember (ide.ExprType Result) (getParentModule (ide.DC Result))
         member (getMethodInterfaceType FD)) = Some FT ∧
    resolves m (SourceKit.ConformingMethodListResult.TypeName skm)
      (Type_print (getResult FT)) ∧
    resolves m (SourceKit.ConformingMethodListResult.TypeUSR skm)
      (printTypeUSR (getResult FT)) ∧
    (∀ declared, getAs_FunctionType (getMethodInterfaceType FD) = Some declared →
       Type_print (getResult declared) ≠ Type_print (getResult FT) →
       ¬ resolves m (SourceKit.ConformingMethodListResult.TypeName skm)
           (Type_print (getResult declared))).
Proof.
  intros HL Hfit Hk.
  pose proof (ConformingMethodsDelivery.cm_members_records Result L (mem w)
                (fresh (dom (mem w))) HL Hfit) as Hrec.
  destruct (Forall2_lookup_l _ _ _ _ _ Hrec Hk)
    as (skm & Hskm & FT & (FD & HFD & HFT) & _ & Hty & Husr & _).
  eexists _, _, skm, FD, FT.
  rewrite (ConformingMethodsFacts.handleResult_run Result L w HL).
  split_and!; try done.
  intros declared _ Hne [Hstr _]. destruct Hty as [Hstr' _]. congruence.
Qed.

(** C6. One call of [handleResults] calls the consumer once for each item,
    in the order of the items: the k-th call is the call [handleSingleResult]
    makes for the k-th item, with an arena that holds the texts printed for
    that item (its type name first), whether the item has members or not;
    and in each result handed over the k-th member record is the record of
    the k-th declaration of the engine's list: as many records as
    declarations, in their order, a declaration that occurs twice having
    two records.  The same holds for the members of a conforming-method
    result.  The arenas are taken to have sizes [SS.size()] can return; for
    [handleResult] the casts are taken to succeed. *)
Theorem members_follow_emission_order :
  (∀ (Results : list ide.TypeContextInfoItem) (w : World),
     Forall (λ Item, fits_size_t
               (TypeContext.SS (TypeContext.handleSingleResult_print Item))) Results →
     ∃ evs,
       TypeContext.handleResults Results w = Ok tt (mkWorld (mem w) (trace w ++ evs)) ∧
       evs = TypeContextSpec.delivery (mem w) <$> Results ∧
       Forall2 (λ Item e, ∃ m Info,
                  e = TypeContextInfoConsumer_handleResult m Info ∧
                  m = <[fresh (dom (mem w)) := typeContext_texts Item]> (mem w) ∧
                  Forall2 (TypeContextSpec.member_record (ide.ExpectedTy Item) m)
                    (ide.ImplicitMembers Item)
                    (SourceKit.TypeContextInfoItem.ImplicitMembers Info))
         Results evs) ∧
  (∀ (Result : ide.ConformingMethodListResult) L (w : World),
     ConformingMethods.handleResult_print Result = Some L →
     fits_size_t (ConformingMethods.SS L) →
     ∃ m SKResult,
       ConformingMethods.handleResult Result w
         = Ok tt (mkWorld (mem w)
                    (trace w ++ [ConformingMethodListConsumer_handleResult m SKResult])) ∧
       m = <[fresh (dom (mem w)) := conformingMethods_result_texts Result]> (mem w) ∧
       Forall2 (ConformingMethodsSpec.member_record Result m)
         (ide.Members Result)
         (SourceKit.ConformingMethodListResult.Members SKResult)).
Proof.
  split.
  - intros Results w Hfit. eexists. rewrite handleResults_run.
    split; [done|]. split; [done|].
    apply Forall2_fmap_r, Forall2_same_length_lookup_2; [done|].
    intros k Item Item' Hk Hk'. rewrite Hk in Hk'. injection Hk' as <-.
    eexists _, _. split; [done|]. unfold typeContext_texts.
    rewrite <- TypeContextFacts.print_arena. split; [done|].
    apply TypeContextDelivery.members_records.
    eapply (proj1 (Forall_forall _ _) Hfit). by eapply list_elem_of_lookup_2.
  - intros Result L w HL Hfit. eexists _, _.
    rewrite (ConformingMethodsFacts.handleResult_run Result L w HL).
    split; [done|]. rewrite <- (conformingMethods_print_arena Result L HL).
    split; [done|]. by apply ConformingMethodsDelivery.cm_members_records.
Qed.

(** C9, as the code has it.  The arena is a local buffer of one call of
    [handleSingleResult] or [handleResult], that is of one engine result, not
    of a query: it is not alive before the call; the consumer is called once,
    while the arena is alive and complete (it holds every text printed for
    the result: the type name, the type USR and the texts of each member, in
    that order and nothing else), with views that all point into it and,
    the arena having a size [SS.size()] can return, lie inside it and can be
    read there; and when the call returns the memory is what it was before
    the call, so that the arena is gone and every view handed over reads
    nothing any more.  Nothing is moved or copied into the result: it
    borrows the emitter's arena for the time of the consumer call.  For
    [handleResult] the casts of its member loop are taken to succeed. *)
Theorem arena_is_borrowed_for_the_call :
  (∀ (Item : ide.TypeContextInfoItem) (w : World),
     typeContext_arena_borrowed Item w) ∧
  (∀ (Result : ide.ConformingMethodListResult) (w : World),
     ConformingMethodsSpec.members_are_methods Result →
     conformingMethods_arena_borrowed Result w).
Proof.
  split.
  - apply typeContext_arena_borrowed_always.
  - apply conformingMethods_arena_borrowed_methods.
Qed.

(** C10. [handleResult] casts every member to [FuncDecl] and the member's
    type seen from the expression type to [FunctionType] with no test
    before: when every member is a method with a function type the call
    returns and has called the result handler once (no cast fails); when
    some member is not, the call stops at the failed cast and the consumer
    is not called. *)
Theorem casts_need_methods (Result : ide.ConformingMethodListResult) (w : World) :
  (ConformingMethodsSpec.members_are_methods Result →
   ∃ m SKResult,
     ConformingMethods.handleResult Result w
       = Ok tt (mkWorld (mem w)
                  (trace w ++ [ConformingMethodListConsumer_handleResult m SKResult]))) ∧
  (¬ ConformingMethodsSpec.members_are_methods Result →
   returned (ConformingMethods.handleResult Result w) = false ∧
   trace (world_of (ConformingMethods.handleResult Result w)) = trace w).
Proof.
  split.
  - intros [L HL]%ConformingMethodsFacts.print_is_Some.
    eexists _, _. by rewrite (ConformingMethodsFacts.handleResult_run Result L w HL).
  - intros Hnot. apply ConformingMethodsFacts.handleResult_abort.
    destruct (ConformingMethods.handleResult_print Result) as [L|] eqn:HL; [|done].
    destruct Hnot. apply ConformingMethodsFacts.print_is_Some. by eexists.
Qed.

End ResultProperties.

(** ** The paths of a request, from what the front end answers *)

Section RequestPaths.
Context `{Frontend}.

Implicit Types (secondPass : PersistentParserState → M unit) (w : World).

Lemma request_with_no_file_system secondPass UnresolvedInputFile Offset Args
    vfsOptions w error :
  getFileSystem vfsOptions "" = (None, error) →
  request_with secondPass UnresolvedInputFile Offset Args vfsOptions w
  = Ok tt (mkWorld (mem w) (trace w ++ [Consumer_failed error])).
Proof. intros Hfs. unfold request_with. rewrite Hfs. by run_M. Qed.

Lemma request_with_invocation_failed secondPass UnresolvedInputFile Offset Args
    vfsOptions w fileSystem error Invocation Error1 :
  getFileSystem vfsOptions "" = (Some fileSystem, error) →
  invocation_asked fileSystem UnresolvedInputFile Offset Args error
    = (true, Invocation, Error1) →
  request_with secondPass UnresolvedInputFile Offset Args vfsOptions w
  = Ok tt (mkWorld (mem w)
             (trace w ++ [initCompilerInvocation_returned true Invocation;
                          Consumer_failed Error1])).
Proof.
  intros Hfs Hinv. unfold request_with, Impl_with. rewrite Hfs. cbv zeta.
  unfold invocation_asked, completion_buffer, resolved_identifier in Hinv.
  destruct (makeCodeCompletionMemoryBuffer _ _ _) as [newBuffer Offset'].
  cbn [fst] in Hinv. rewrite Hinv. run_M. cbn. by rewrite <- app_assoc.
Qed.

Lemma request_with_no_inputs secondPass UnresolvedInputFile Offset Args
    vfsOptions w fileSystem error Invocation Error1 :
  getFileSystem vfsOptions "" = (Some fileSystem, error) →
  invocation_asked fileSystem UnresolvedInputFile Offset Args error
    = (false, Invocation, Error1) →
  hasInputs Invocation = false →
  request_with secondPass UnresolvedInputFile Offset Args vfsOptions w
  = Ok tt (mkWorld (mem w)
             (trace w ++ [initCompilerInvocation_returned false Invocation;
                          Consumer_failed "no input filenames specified"])).
Proof.
  intros Hfs Hinv Hno. unfold request_with, Impl_with. rewrite Hfs. cbv zeta.
  unfold invocation_asked, completion_buffer, resolved_identifier in Hinv.
  destruct (makeCodeCompletionMemoryBuffer _ _ _) as [newBuffer Offset'].
  cbn [fst] in Hinv. rewrite Hinv, Hno. run_M. cbn. by rewrite <- app_assoc.
Qed.

Lemma request_with_no_instance secondPass UnresolvedInputFile Offset Args
    vfsOptions w fileSystem error Invocation Error1 Error2 :
  getFileSystem vfsOptions "" = (Some fileSystem, error) →
  invocation_asked fileSystem UnresolvedInputFile Offset Args error
    = (false, Invocation, Error1) →
  hasInputs Invocation = true →
  instance_asked fileSystem UnresolvedInputFile Offset Invocation Error1
    = (None, Error2) →
  request_with secondPass UnresolvedInputFile Offset Args vfsOptions w
  = Ok tt (mkWorld (mem w)
             (trace w ++ [initCompilerInvocation_returned false Invocation;
                          getCompilerInstance_returned None;
                          Consumer_failed Error2])).
Proof.
  intros Hfs Hinv Hin Hci. unfold request_with, Impl_with. rewrite Hfs. cbv zeta.
  unfold invocation_asked, instance_asked, completion_buffer,
    resolved_identifier in Hinv, Hci.
  destruct (makeCodeCompletionMemoryBuffer _ _ _) as [newBuffer Offset'].
  cbn [fst snd] in Hinv, Hci. rewrite Hinv, Hin. cbn [negb]. rewrite Hci.
  run_M. cbn. by rewrite <- !app_assoc.
Qed.

(** With an instance, the request is the second pass run after the calls
    that precede it, followed by the deferred call when it returns. *)
Lemma request_with_acquired secondPass UnresolvedInputFile Offset Args
    vfsOptions w fileSystem error Invocation Error1 CI Error2 :
  getFileSystem vfsOptions "" = (Some fileSystem, error) →
  invocation_asked fileSystem UnresolvedInputFile Offset Args error
    = (false, Invocation, Error1) →
  hasInputs Invocation = true →
  instance_asked fileSystem UnresolvedInputFile Offset Invocation Error1
    = (Some CI, Error2) →
  request_with secondPass UnresolvedInputFile Offset Args vfsOptions w
  = match secondPass (state_for_second_pass CI)
            (mkWorld (mem w)
               (trace w ++
                [initCompilerInvocation_returned false Invocation;
                 getCompilerInstance_returned (Some CI)] ++
                (if hasPersistentParserState CI then []
                 else [performParseAndResolveImportsOnly_called CI]) ++
                [performCodeCompletionSecondPass_called (state_for_second_pass CI)]))
    with
    | Ok _ w' => Ok tt (mkWorld (mem w') (trace w' ++ [removeDiagnosticConsumer_called]))
    | Abort w' => Abort w'
    end.
Proof.
  intros Hfs Hinv Hin Hci. unfold request_with, Impl_with. rewrite Hfs. cbv zeta.
  unfold invocation_asked, instance_asked, completion_buffer,
    resolved_identifier in Hinv, Hci.
  destruct (makeCodeCompletionMemoryBuffer _ _ _) as [newBuffer Offset'].
  cbn [fst snd] in Hinv, Hci. rewrite Hinv, Hin. cbn [negb]. rewrite Hci.
  unfold state_for_second_pass. run_M.
  destruct (hasPersistentParserState CI); cbn [mem trace app];
    rewrite <- !app_assoc; cbn [app];
    by destruct (secondPass _ _) as [[] w'|w'].
Qed.

(** [handleResult], called for each result in turn from a memory [mem w]:
    the results before the first one with a failing cast are handed over,
    each from that same memory; the loop returns when there is no such
    result and stops at it otherwise. *)
Lemma conformingMethods_for_each_exact (Rs : list ide.ConformingMethodListResult) :
  ∀ w, ∃ (n : nat) evs,
    Forall2 (conformingMethods_delivery (mem w)) (take n Rs) evs ∧
    ((n = length Rs ∧
      for_each ConformingMethods.handleResult Rs w
        = Ok tt (mkWorld (mem w) (trace w ++ evs))) ∨
     (∃ Result w',
        Rs !! n = Some Result ∧
        ConformingMethods.handleResult_print Result = None ∧
        for_each ConformingMethods.handleResult Rs w = Abort w' ∧
        trace w' = trace w ++ evs)).
Proof.
  induction Rs as [|Result Rs IH]; intros w.
  - exists 0%nat, []. split; [constructor|]. left. split; [done|].
    cbn. rewrite app_nil_r. by destruct w.
  - rewrite for_each_cons.
    destruct (ConformingMethods.handleResult_print Result) as [L|] eqn:HL.
    + rewrite (ConformingMethodsFacts.handleResult_run Result L w HL). cbv zeta.
      match goal with |- context [for_each _ Rs ?w1] =>
        destruct (IH w1) as (n & evs & Hevs & Hend) end.
      cbn [mem trace] in Hevs, Hend.
      exists (S n), (ConformingMethodListConsumer_handleResult
                       (<[fresh (dom (mem w)) := ConformingMethods.SS L]> (mem w))
                       (ConformingMethods.handleResult_SKResult (fresh (dom (mem w))) L)
                     :: evs).
      split.
      * cbn [take]. constructor; [by exists L | done].
      * destruct Hend as [[-> ->]|(R & w' & HR & HRn & -> & Htr)].
        -- left. split; [done|]. by rewrite <- app_assoc.
        -- right. exists R, w'. split_and!; [done | done | done |].
           by rewrite Htr, <- app_assoc.
    + destruct (ConformingMethodsFacts.handleResult_abort Result w HL) as [Hr Ht].
      destruct (ConformingMethods.handleResult Result w) as [[] w'|w'] eqn:Hrun;
        [done|].
      cbn in Ht. exists 0%nat, []. split; [constructor|]. right.
      exists Result, w'. by rewrite app_nil_r.
Qed.

End RequestPaths.

(** ** What a request does, path by path *)

Section RequestBehaviour.
Context `{Frontend}.

(** X1. When [getFileSystem] gives no file system, the request calls the
    consumer's failure handler with the error string [getFileSystem] left,
    and does nothing else: the front end is not asked for an invocation or
    an instance. *)
Theorem no_file_system_only_fails UnresolvedInputFile Offset Args
    ExpectedTypeNames vfsOptions (w : World) error :
  getFileSystem vfsOptions "" = (None, error) →
  TypeContext.getExpressionContextInfo UnresolvedInputFile Offset Args vfsOptions w
    = Ok tt (mkWorld (mem w) (trace w ++ [Consumer_failed error])) ∧
  ConformingMethods.getConformingMethodList UnresolvedInputFile Offset Args
    ExpectedTypeNames vfsOptions w
    = Ok tt (mkWorld (mem w) (trace w ++ [Consumer_failed error])).
Proof.
  intros Hfs. rewrite getExpressionContextInfo_shape, getConformingMethodList_shape.
  split; by apply request_with_no_file_system.
Qed.

(** X2. When [initCompilerInvocation] fails, the request calls the failure
    handler with the error string [initCompilerInvocation] left (not the one
    of [getFileSystem], which it was given), and no instance is asked for.
    The invocation is made for the identifier of the completion buffer,
    itself named after the real path of the input file or, when
    [getRealPath] fails, after the file's own identifier. *)
Theorem invocation_failure_reports_its_error UnresolvedInputFile Offset Args
    ExpectedTypeNames vfsOptions (w : World) fileSystem error Invocation Error1 :
  getFileSystem vfsOptions "" = (Some fileSystem, error) →
  invocation_asked fileSystem UnresolvedInputFile Offset Args error
    = (true, Invocation, Error1) →
  TypeContext.getExpressionContextInfo UnresolvedInputFile Offset Args vfsOptions w
    = Ok tt (mkWorld (mem w)
               (trace w ++ [initCompilerInvocation_returned true Invocation;
                            Consumer_failed Error1])) ∧
  ConformingMethods.getConformingMethodList UnresolvedInputFile Offset Args
    ExpectedTypeNames vfsOptions w
    = Ok tt (mkWorld (mem w)
               (trace w ++ [initCompilerInvocation_returned true Invocation;
                            Consumer_failed Error1])).
Proof.
  intros Hfs Hinv. rewrite getExpressionContextInfo_shape, getConformingMethodList_shape.
  split; by eapply request_with_invocation_failed.
Qed.

(** X3. When the invocation has inputs and [getCompilerInstance] gives no
    instance, the request calls the failure handler with the error string
    [getCompilerInstance] left; nothing is parsed and no second pass is
    run.  The instance is asked for the completion buffer and for the
    offset [makeCodeCompletionMemoryBuffer] left, not the caller's. *)
Theorem missing_instance_reports_its_error UnresolvedInputFile Offset Args
    ExpectedTypeNames vfsOptions (w : World) fileSystem error Invocation Error1
    Error2 :
  getFileSystem vfsOptions "" = (Some fileSystem, error) →
  invocation_asked fileSystem UnresolvedInputFile Offset Args error
    = (false, Invocation, Error1) →
  hasInputs Invocation = true →
  instance_asked fileSystem UnresolvedInputFile Offset Invocation Error1
    = (None, Error2) →
  TypeContext.getExpressionContextInfo UnresolvedInputFile Offset Args vfsOptions w
    = Ok tt (mkWorld (mem w)
               (trace w ++ [initCompilerInvocation_returned false Invocation;
                            getCompilerInstance_returned None;
                            Consumer_failed Error2])) ∧
  ConformingMethods.getConformingMethodList UnresolvedInputFile Offset Args
    ExpectedTypeNames vfsOptions w
    = Ok tt (mkWorld (mem w)
               (trace w ++ [initCompilerInvocation_returned false Invocation;
                            getCompilerInstance_returned None;
                            Consumer_failed Error2])).
Proof.
  intros Hfs Hinv Hin Hci.
  rewrite getExpressionContextInfo_shape, getConformingMethodList_shape.
  split; by eapply request_with_no_instance.
Qed.

Lemma request_trace_failed_idle tr msg :
  request_trace tr → In (Consumer_failed msg) tr →
  List.filter is_parse tr = [] ∧ List.filter is_secondPass tr = [] ∧
  ¬ In removeDiagnosticConsumer_called tr ∧
  ∀ CI, ¬ In (getCompilerInstance_returned (Some CI)) tr.
Proof.
  destruct 1 as [msg'|Inv msg'|Inv Hin|Inv msg' Hin|Inv CI evs tail Hin Hevs Htail];
    intros Hfailed.
  - split_and!; [done | done | by intros [[=]|[]] | by intros CI [[=]|[]]].
  - split_and!; [done | done | by intros [[=]|[[=]|[]]]
                 | by intros CI [[=]|[[=]|[]]]].
  - split_and!; [done | done | by intros [[=]|[[=]|[]]]
                 | by intros CI [[=]|[[=]|[]]]].
  - split_and!; [done | done | by intros [[=]|[[=]|[[=]|[]]]]
                 | by intros CI [[=]|[[=]|[[=]|[]]]]].
  - exfalso. unfold completed_trace in Hfailed. rewrite !in_app_iff in Hfailed.
    destruct Hfailed as [Hev|[Hev|[Hev|[Hev|Hev]]]].
    + by destruct Hev as [[=]|[[=]|[]]].
    + destruct (hasPersistentParserState CI); [done|]. by destruct Hev as [[=]|[]].
    + by destruct Hev as [[=]|[]].
    + apply list_elem_of_In in Hev.
      by apply (proj1 (Forall_forall _ _) Hevs) in Hev.
    + destruct Htail as [-> | ->]; [done|]. by destruct Hev as [[=]|[]].
Qed.

(** X4. A request that calls the failure handler has made no use of a
    compiler instance: none was acquired, nothing was parsed, no second pass
    was run and there was no diagnostic consumer to remove. *)
Theorem failure_means_no_instance_was_used UnresolvedInputFile Offset Args
    ExpectedTypeNames vfsOptions (m : Memory) msg :
  let idle (tr : list Event) :=
    In (Consumer_failed msg) tr →
    List.filter is_parse tr = [] ∧ List.filter is_secondPass tr = [] ∧
    ¬ In removeDiagnosticConsumer_called tr ∧
    ∀ CI, ¬ In (getCompilerInstance_returned (Some CI)) tr in
  idle (trace (world_of (TypeContext.getExpressionContextInfo UnresolvedInputFile
                           Offset Args vfsOptions (mkWorld m [])))) ∧
  idle (trace (world_of (ConformingMethods.getConformingMethodList UnresolvedInputFile
                           Offset Args ExpectedTypeNames vfsOptions (mkWorld m [])))).
Proof.
  intros idle. split; intros Hfailed;
    (eapply request_trace_failed_idle; [|exact Hfailed]).
  - rewrite getExpressionContextInfo_shape.
    apply request_with_trace, typeContext_hands_results_only.
  - rewrite getConformingMethodList_shape.
    apply request_with_trace, conformingMethods_hands_results_only.
Qed.

(** X5. A type-context request always returns, whatever the front end
    answers, and leaves the memory as it found it: every arena made for a
    result is gone.  A conforming-method request that returns does the
    same; one that does not return stopped at a cast. *)
Theorem requests_leave_no_arena UnresolvedInputFile Offset Args
    ExpectedTypeNames vfsOptions (w : World) :
  (∃ calls,
     TypeContext.getExpressionContextInfo UnresolvedInputFile Offset Args vfsOptions w
     = Ok tt (mkWorld (mem w) (trace w ++ calls))) ∧
  (returned (ConformingMethods.getConformingMethodList UnresolvedInputFile Offset
               Args ExpectedTypeNames vfsOptions w) = true →
   mem (world_of (ConformingMethods.getConformingMethodList UnresolvedInputFile
                    Offset Args ExpectedTypeNames vfsOptions w)) = mem w).
Proof.
  rewrite getExpressionContextInfo_shape, getConformingMethodList_shape.
  destruct (getFileSystem vfsOptions "") as [[fileSystem|] error] eqn:Hfs.
  2:{ split; [eexists|intros _]; by erewrite request_with_no_file_system. }
  destruct (invocation_asked fileSystem UnresolvedInputFile Offset Args error)
    as [[[|] Invocation] Error1] eqn:Hinv.
  { split; [eexists|intros _]; by erewrite request_with_invocation_failed. }
  destruct (hasInputs Invocation) eqn:Hin.
  2:{ split; [eexists|intros _]; by erewrite request_with_no_inputs. }
  destruct (instance_asked fileSystem UnresolvedInputFile Offset Invocation Error1)
    as [[CI|] Error2] eqn:Hci.
  2:{ split; [eexists|intros _]; by erewrite request_with_no_instance. }
  split.
  - eexists. erewrite request_with_acquired by done.
    rewrite typeContext_secondPass_run. cbn [mem trace].
    by rewrite <- !app_assoc.
  - erewrite request_with_acquired by done.
    match goal with |- context [for_each _ ?Rs ?w1] =>
      destruct (conformingMethods_for_each_exact Rs w1)
        as (n & evs & _ & [[_ ->]|(R & w' & _ & _ & -> & _)]) end; [done|].
    by intros [=].
Qed.

(** X6. A type-context request that acquires an instance makes, in this
    order: the two calls that gave the invocation and the instance, the
    parse pass if the instance lacks parser state, the second pass, one
    consumer call for every item of every [handleResults] call of the
    engine, in the engine's order, and last the removal of the diagnostic
    consumer.  With no item the consumer is not called at all. *)
Theorem typeContext_request_delivers_every_item UnresolvedInputFile Offset Args
    vfsOptions (m : Memory) fileSystem error Invocation Error1 CI Error2 :
  getFileSystem vfsOptions "" = (Some fileSystem, error) →
  invocation_asked fileSystem UnresolvedInputFile Offset Args error
    = (false, Invocation, Error1) →
  hasInputs Invocation = true →
  instance_asked fileSystem UnresolvedInputFile Offset Invocation Error1
    = (Some CI, Error2) →
  TypeContext.getExpressionContextInfo UnresolvedInputFile Offset Args vfsOptions
    (mkWorld m [])
  = Ok tt (mkWorld m
             (completed_trace Invocation CI
                (typeContextInfoSecondPass (state_for_second_pass CI)
                   ≫= fmap (TypeContextSpec.delivery m))
                [removeDiagnosticConsumer_called])).
Proof.
  intros Hfs Hinv Hin Hci. rewrite getExpressionContextInfo_shape.
  erewrite request_with_acquired by done.
  rewrite typeContext_secondPass_run. cbn [mem trace].
  unfold completed_trace, state_for_second_pass. by rewrite <- !app_assoc.
Qed.

(** X7. A conforming-method request that acquires an instance hands the
    engine's results to the consumer in order up to the first result with a
    member that is not a method with a function type.  With no such result
    all are handed over and the request returns after removing the
    diagnostic consumer; otherwise the request stops at that result, which
    is not handed over, and neither the failure handler nor the removal of
    the diagnostic consumer is called. *)
Theorem conformingMethods_request_delivers_until_a_cast_fails UnresolvedInputFile
    Offset Args ExpectedTypeNames vfsOptions (m : Memory) fileSystem error
    Invocation Error1 CI Error2 :
  getFileSystem vfsOptions "" = (Some fileSystem, error) →
  invocation_asked fileSystem UnresolvedInputFile Offset Args error
    = (false, Invocation, Error1) →
  hasInputs Invocation = true →
  instance_asked fileSystem UnresolvedInputFile Offset Invocation Error1
    = (Some CI, Error2) →
  let Rs := conformingMethodListSecondPass ExpectedTypeNames
              (state_for_second_pass CI) in
  let run := ConformingMethods.getConformingMethodList UnresolvedInputFile Offset
               Args ExpectedTypeNames vfsOptions (mkWorld m []) in
  ∃ (n : nat) evs,
    Forall2 (conformingMethods_delivery m) (take n Rs) evs ∧
    ((n = length Rs ∧
      run = Ok tt (mkWorld m (completed_trace Invocation CI evs
                                [removeDiagnosticConsumer_called]))) ∨
     (∃ Result,
        Rs !! n = Some Result ∧
        ¬ ConformingMethodsSpec.members_are_methods Result ∧
        returned run = false ∧
        trace (world_of run) = completed_trace Invocation CI evs [])).
Proof.
  intros Hfs Hinv Hin Hci Rs run. unfold run.
  rewrite getConformingMethodList_shape.
  erewrite request_with_acquired by done. fold Rs. cbn [mem trace].
  match goal with |- context [for_each _ Rs ?w1] =>
    destruct (conformingMethods_for_each_exact Rs w1)
      as (n & evs & Hevs & Hend) end.
  cbn [mem trace] in Hevs, Hend. exists n, evs. split; [done|].
  destruct Hend as [[-> ->]|(R & w' & HR & HRn & -> & Htr)].
  - left. split; [done|]. cbn [mem trace].
    unfold completed_trace, state_for_second_pass. by rewrite <- !app_assoc.
  - right. exists R. split_and!; [done | | done |].
    + intros Hm%ConformingMethodsFacts.print_is_Some. rewrite HRn in Hm.
      by destruct Hm.
    + cbn [world_of]. rewrite Htr.
      unfold completed_trace, state_for_second_pass.
      by rewrite app_nil_r, <- !app_assoc.
Qed.

End RequestBehaviour.

(** ** The arena as a whole *)

Lemma tiled_app l1 : ∀ lo mid l2 hi,
  tiled lo l1 mid → tiled mid l2 hi → tiled lo (l1 ++ l2) hi.
Proof.
  induction l1 as [|r l1 IH]; simpl; intros lo mid l2 hi H1 H2.
  - by subst.
  - destruct H1 as (? & ? & H1). eauto.
Qed.

Lemma tiled_eq lo lo' l hi hi' :
  lo = lo' → hi = hi' → tiled lo l hi → tiled lo' l hi'.
Proof. by intros -> ->. Qed.

Section ArenaProperties.
Context `{Frontend}.

Lemma typeContext_DocBriefs ExpectedTy (members : list ValueDecl) : ∀ SS,
  TypeContext.BriefComment <$>
    (TypeContext.handleSingleResult_members ExpectedTy SS members).2
  = resolveDocBrief <$> members.
Proof.
  induction members as [|member members IH]; intros SS; [done|].
  rewrite TypeContextFacts.members_cons. cbn [snd fmap list_fmap]. by rewrite IH.
Qed.

Lemma typeContext_layout_tiled ExpectedTy b (members : list ValueDecl) : ∀ start,
  tiled start
    ((TypeContext.toMember b <$> TypeContextSpec.layout ExpectedTy start members) ≫=
       (λ m, [SourceKit.TypeContextInfoItem.Name m;
              SourceKit.TypeContextInfoItem.Description m;
              SourceKit.TypeContextInfoItem.SourceText m]))
    (start + Z.of_nat (length (members ≫= TypeContextSpec.member_text ExpectedTy))).
Proof.
  induction members as [|member members IH]; intros start; [simpl; lia|].
  simpl. split_and!; try lia.
  eapply tiled_eq; [| |apply IH].
  - lia.
  - unfold TypeContextSpec.member_text, mbind. rewrite !length_app. lia.
Qed.

Lemma conformingMethods_laid_out_tiled Result b SS members infos SS' :
  ConformingMethodsSpec.laid_out Result SS members infos SS' →
  tiled (Z.of_nat (length SS))
    ((ConformingMethods.toMember b <$> infos) ≫=
       (λ m, [SourceKit.ConformingMethodListResult.Name m;
              SourceKit.ConformingMethodListResult.TypeName m;
              SourceKit.ConformingMethodListResult.TypeUSR m;
              SourceKit.ConformingMethodListResult.Description m;
              SourceKit.ConformingMethodListResult.SourceText m]))
    (Z.of_nat (length SS')).
Proof.
  induction 1 as [SS|SS member rty members infos SS' Hty Hlaid IH]; [done|].
  simpl. split_and!; try lia.
  eapply tiled_eq; [| reflexivity | apply IH].
  unfold ConformingMethodsSpec.member_text. rewrite !length_app. lia.
Qed.

(** X8. Whatever the sizes, the arena handed to the consumer is the printed
    type name, the printed type USR and then, member after member, the
    texts printed for the member, with nothing before, between or after
    (no terminator, no padding, no documentation); and the brief
    documentation of the records handed over is that of the declarations,
    in order, one record for each declaration. *)
Theorem arena_is_the_printed_texts :
  (∀ (Item : ide.TypeContextInfoItem) (w : World),
     ∃ b Info,
       TypeContext.handleSingleResult Item w
         = Ok tt (mkWorld (mem w)
                    (trace w ++
                     [TypeContextInfoConsumer_handleResult
                        (<[b := Type_print (ide.ExpectedTy Item) ++
                                printTypeUSR (ide.ExpectedTy Item) ++
                                (ide.ImplicitMembers Item ≫=
                                   TypeContextSpec.member_text (ide.ExpectedTy Item))]>
                           (mem w))
                        Info])) ∧
       SourceKit.TypeContextInfoItem.DocBrief <$>
         SourceKit.TypeContextInfoItem.ImplicitMembers Info
       = resolveDocBrief <$> ide.ImplicitMembers Item) ∧
  (∀ (Result : ide.ConformingMethodListResult) L (w : World),
     ConformingMethods.handleResult_print Result = Some L →
     ∃ b SKResult,
       ConformingMethods.handleResult Result w
         = Ok tt (mkWorld (mem w)
                    (trace w ++
                     [ConformingMethodListConsumer_handleResult
                        (<[b := Type_print (ide.ExprType Result) ++
                                printTypeUSR (ide.ExprType Result) ++
                                conformingMethods_texts Result (ide.Members Result)]>
                           (mem w))
                        SKResult])) ∧
       SourceKit.ConformingMethodListResult.DocBrief <$>
         SourceKit.ConformingMethodListResult.Members SKResult
       = resolveDocBrief <$> ide.Members Result).
Proof.
  split.
  - intros Item w. eexists _, _. rewrite TypeContextFacts.handleSingleResult_run.
    rewrite TypeContextFacts.print_arena. split; [done|].
    cbn [TypeContext.handleSingleResult_Info
         SourceKit.TypeContextInfoItem.ImplicitMembers].
    rewrite TypeContextFacts.print_eq. cbn [TypeContext.ImplicitMembers].
    rewrite <- list_fmap_compose. apply typeContext_DocBriefs.
  - intros Result L w HL. eexists _, _.
    rewrite (ConformingMethodsFacts.handleResult_run Result L w HL).
    destruct (ConformingMethodsFacts.print_inv Result L HL) as (Hloop & _).
    destruct (ConformingMethodsDelivery.print_laid_out Result L HL)
      as (rest & _ & _ & Hdocs & _).
    apply conformingMethods_members_arena in Hloop. rewrite Hloop.
    split; [by rewrite <- app_assoc|].
    cbn [ConformingMethods.handleResult_SKResult
         SourceKit.ConformingMethodListResult.Members].
    by rewrite <- list_fmap_compose.
Qed.

(** X9. When the printed type name and type USR are each shorter than 2^32
    bytes (and the arena has a size [SS.size()] can return), the views
    handed over cover the arena exactly: the type name begins at offset 0,
    every other view begins where the one before it ends, in the order type
    name, type USR, then the fields of each member in their printing order,
    and the last one ends at the end of the arena.  Every byte of the arena
    belongs to exactly one view. *)
Theorem views_tile_the_arena :
  (∀ (Item : ide.TypeContextInfoItem) (w : World),
     fits_unsigned (Type_print (ide.ExpectedTy Item)) →
     fits_unsigned (printTypeUSR (ide.ExpectedTy Item)) →
     fits_size_t (TypeContext.SS (TypeContext.handleSingleResult_print Item)) →
     ∃ b arena Info,
       TypeContext.handleSingleResult Item w
         = Ok tt (mkWorld (mem w)
                    (trace w ++ [TypeContextInfoConsumer_handleResult
                                   (<[b := arena]> (mem w)) Info])) ∧
       tiled 0 (TypeContextSpec.views Info) (Z.of_nat (length arena))) ∧
  (∀ (Result : ide.ConformingMethodListResult) L (w : World),
     ConformingMethods.handleResult_print Result = Some L →
     fits_unsigned (Type_print (ide.ExprType Result)) →
     fits_unsigned (printTypeUSR (ide.ExprType Result)) →
     fits_size_t (ConformingMethods.SS L) →
     ∃ b arena SKResult,
       ConformingMethods.handleResult Result w
         = Ok tt (mkWorld (mem w)
                    (trace w ++ [ConformingMethodListConsumer_handleResult
                                   (<[b := arena]> (mem w)) SKResult])) ∧
       tiled 0 (ConformingMethodsSpec.views SKResult) (Z.of_nat (length arena))).
Proof.
  split.
  - intros Item w Hn Hu Hfit. eexists _, _, _.
    rewrite TypeContextFacts.handleSingleResult_run. split; [done|].
    rewrite TypeContextDelivery.views_Info.
    destruct (TypeContextFacts.print_top Item Hfit) as (-> & -> & -> & ->).
    rewrite TypeContextFacts.print_members by done.
    rewrite TypeContextFacts.print_arena.
    unfold fits_unsigned in Hn, Hu.
    rewrite (to_unsigned_small (Z.of_nat (length (Type_print _)))) by lia.
    match goal with |- context [to_unsigned ?z] =>
      replace z with (Z.of_nat (length (printTypeUSR (ide.ExpectedTy Item)))) by lia end.
    rewrite to_unsigned_small by lia.
    eapply (tiled_app [_; _]); [cbn; split_and!; try done; lia|].
    eapply tiled_eq; [| |apply typeContext_layout_tiled].
    + rewrite length_app. lia.
    + rewrite !length_app. lia.
  - intros Result L w HL Hn Hu Hfit. eexists _, _, _.
    rewrite (ConformingMethodsFacts.handleResult_run Result L w HL). split; [done|].
    rewrite ConformingMethodsDelivery.views_SKResult.
    destruct (ConformingMethodsDelivery.cm_print_top Result L HL Hfit)
      as (-> & -> & -> & ->).
    destruct (ConformingMethodsDelivery.print_laid_out Result L HL)
      as (rest & _ & _ & _ & Hlaid).
    unfold fits_unsigned in Hn, Hu.
    rewrite (to_unsigned_small (Z.of_nat (length (Type_print _)))) by lia.
    match goal with |- context [to_unsigned ?z] =>
      replace z with (Z.of_nat (length (printTypeUSR (ide.ExprType Result)))) by lia end.
    rewrite to_unsigned_small by lia.
    eapply (tiled_app [_; _]); [cbn; split_and!; try done; lia|].
    eapply tiled_eq; [| |eapply conformingMethods_laid_out_tiled, (Hlaid Hfit)];
      [|done].
    by rewrite length_app, Nat2Z.inj_add.
Qed.

(** X10. The type-name view handed over always begins at offset 0 of the
    arena and reads a beginning of the printed type name: it is the view of
    length [n mod 2^32] at offset 0, where [n] is the length of the name,
    the name itself begins the arena, and the view reads the first
    [n mod 2^32] bytes of the name; the whole name when [n] is below 2^32.
    (The arena is taken to have a size [SS.size()] can return.) *)
Theorem type_name_view_reads_a_prefix :
  (∀ (Item : ide.TypeContextInfoItem) (w : World),
     fits_size_t (TypeContext.SS (TypeContext.handleSingleResult_print Item)) →
     let name := Type_print (ide.ExpectedTy Item) in
     let n := to_unsigned (Z.of_nat (length name)) in
     ∃ b arena Info,
       TypeContext.handleSingleResult Item w
         = Ok tt (mkWorld (mem w)
                    (trace w ++ [TypeContextInfoConsumer_handleResult
                                   (<[b := arena]> (mem w)) Info])) ∧
       name `prefix_of` arena ∧
       SourceKit.TypeContextInfoItem.TypeName Info = mkStringRef b 0 n ∧
       str (<[b := arena]> (mem w)) (SourceKit.TypeContextInfoItem.TypeName Info)
       = Some (take (Z.to_nat n) name)) ∧
  (∀ (Result : ide.ConformingMethodListResult) L (w : World),
     ConformingMethods.handleResult_print Result = Some L →
     fits_size_t (ConformingMethods.SS L) →
     let name := Type_print (ide.ExprType Result) in
     let n := to_unsigned (Z.of_nat (length name)) in
     ∃ b arena SKResult,
       ConformingMethods.handleResult Result w
         = Ok tt (mkWorld (mem w)
                    (trace w ++ [ConformingMethodListConsumer_handleResult
                                   (<[b := arena]> (mem w)) SKResult])) ∧
       name `prefix_of` arena ∧
       SourceKit.ConformingMethodListResult.TypeName_ SKResult = mkStringRef b 0 n ∧
       str (<[b := arena]> (mem w))
         (SourceKit.ConformingMethodListResult.TypeName_ SKResult)
       = Some (take (Z.to_nat n) name)).
Proof.
  split.
  - intros Item w Hfit name n. eexists _, _, _.
    rewrite TypeContextFacts.handleSingleResult_run. split; [done|].
    split; [rewrite TypeContextFacts.print_arena; by eexists|].
    by apply TypeContextDelivery.TypeName_view.
  - intros Result L w HL Hfit name n. eexists _, _, _.
    rewrite (ConformingMethodsFacts.handleResult_run Result L w HL). split; [done|].
    split.
    + destruct (ConformingMethodsDelivery.print_laid_out Result L HL)
        as (rest & -> & _). by eexists.
    + by apply ConformingMethodsDelivery.cm_TypeName_view.
Qed.

End ArenaProperties.

(** ** The properties at work on the small engine *)

Module OnToy.
Import Toy.

Lemma In_lookup {A} (l : list A) (k : nat) x : l !! k = Some x → In x l.
Proof. intros Hk. apply list_elem_of_In. by eapply list_elem_of_lookup_2. Qed.






(** The round trip on an item with three members and on a result with one
    method. *)
Lemma roundtrip_below_4GiB_witness :
  TypeContextSpec.delivers_roundtrip Toy.item Toy.w0 ∧
  ConformingMethodsSpec.delivers_roundtrip Toy.result Toy.w0.
Proof.
  split.
  - apply (proj1 (@roundtrip_below_4GiB Toy.toy_AST Toy.toy_Frontend)
             Toy.item Toy.w0); by vm_compute.
  - eapply (proj1 (proj2 (@roundtrip_below_4GiB Toy.toy_AST Toy.toy_Frontend))
              Toy.result _ Toy.w0); [vm_compute; reflexivity | by vm_compute..].
Defined.

(** The views of the same item and result lie inside their arenas, apart. *)
Lemma spans_inside_apart_and_fixed_witness :
  TypeContextSpec.spans_sound Toy.item Toy.w0 ∧
  ConformingMethodsSpec.spans_sound Toy.result Toy.w0.
Proof.
  split.
  - apply (proj1 (@spans_inside_apart_and_fixed Toy.toy_AST Toy.toy_Frontend)
             Toy.item Toy.w0); by vm_compute.
  - eapply (proj2 (@spans_inside_apart_and_fixed Toy.toy_AST Toy.toy_Frontend)
              Toy.result _ Toy.w0); [vm_compute; reflexivity | by vm_compute].
Defined.

(** The brief documentation of a member imported from Clang with a comment,
    and of a native method. *)
Lemma doc_brief_three_cases_witness :
  (∃ m Info skm,
     TypeContext.handleSingleResult Toy.item Toy.w0
       = Ok tt (mkWorld (mem Toy.w0)
                  (trace Toy.w0 ++ [TypeContextInfoConsumer_handleResult m Info])) ∧
     SourceKit.TypeContextInfoItem.ImplicitMembers Info !! 1%nat = Some skm ∧
     doc_brief_cases Toy.max (SourceKit.TypeContextInfoItem.DocBrief skm)) ∧
  (∃ m SKResult skm,
     ConformingMethods.handleResult Toy.result Toy.w0
       = Ok tt (mkWorld (mem Toy.w0)
                  (trace Toy.w0 ++ [ConformingMethodListConsumer_handleResult m SKResult])) ∧
     SourceKit.ConformingMethodListResult.Members SKResult !! 0%nat = Some skm ∧
     doc_brief_cases Toy.repeated (SourceKit.ConformingMethodListResult.DocBrief skm)).
Proof.
  split.
  - apply (proj1 (@doc_brief_three_cases Toy.toy_AST Toy.toy_Frontend)
             Toy.item Toy.w0 1%nat Toy.max). reflexivity.
  - eapply (proj2 (@doc_brief_three_cases Toy.toy_AST Toy.toy_Frontend)
              Toy.result _ Toy.w0 0%nat Toy.repeated);
      [vm_compute; reflexivity | reflexivity].
Defined.

(** The brief documentation the small engine's members get: the Clang
    comment, nothing for a Clang declaration without comment or for a macro
    (their own comments are not looked at), nothing for a member with
    neither. *)
Example doc_brief_of_toy_members :
  resolveDocBrief Toy.max = Toy.bytes "Largest value." ∧
  resolveDocBrief Toy.zero = Toy.bytes "The zero value." ∧
  resolveDocBrief Toy.bare = [] ∧
  resolveDocBrief Toy.macro = [] ∧
  resolveDocBrief Toy.plain = [].
Proof. by vm_compute. Qed.

(** The result type printed for the method [repeated] of the small engine. *)
Lemma result_type_is_substituted_witness :
  ∃ m SKResult skm FD FT,
    ConformingMethods.handleResult Toy.result Toy.w0
      = Ok tt (mkWorld (mem Toy.w0)
                 (trace Toy.w0 ++ [ConformingMethodListConsumer_handleResult m SKResult])) ∧
    SourceKit.ConformingMethodListResult.Members SKResult !! 0%nat = Some skm ∧
    dyn_cast_FuncDecl Toy.repeated = Some FD ∧
    getAs_FunctionType
      (getTypeOfMember (ide.ExprType Toy.result) (getParentModule (ide.DC Toy.result))
         Toy.repeated (getMethodInterfaceType FD)) = Some FT ∧
    resolves m (SourceKit.ConformingMethodListResult.TypeName skm)
      (Type_print (getResult FT)) ∧
    resolves m (SourceKit.ConformingMethodListResult.TypeUSR skm)
      (printTypeUSR (getResult FT)) ∧
    (∀ declared, getAs_FunctionType (getMethodInterfaceType FD) = Some declared →
       Type_print (getResult declared) ≠ Type_print (getResult FT) →
       ¬ resolves m (SourceKit.ConformingMethodListResult.TypeName skm)
           (Type_print (getResult declared))).
Proof.
  eapply (@result_type_is_substituted Toy.toy_AST Toy.toy_Frontend
            Toy.result _ Toy.w0 0%nat Toy.repeated);
    [vm_compute; reflexivity | by vm_compute | reflexivity].
Defined.

(** The method [repeated] is declared with type [(Int) -> [Self]]; for an
    expression of type [Int] the result type printed is [[Int]]. *)
Example toy_result_type_name :
  (snd <$> getAs_FunctionType (getMethodInterfaceType Toy.repeated))
    = Some (Toy.TArray Toy.TSelf) ∧
  Type_print (Toy.TArray Toy.TSelf) = Toy.bytes "[Self]" ∧
  ConformingMethods.resultTy Toy.result Toy.repeated = Some (Toy.TArray Toy.TInt) ∧
  Type_print (Toy.TArray Toy.TInt) = Toy.bytes "[Int]".
Proof. by vm_compute. Qed.

(** Four items handed to [handleResults]: four consumer calls, in the order
    of the items, also for the two items without members; the first with
    the records of [zero], [max] and [zero] again. *)
Lemma members_follow_emission_order_witness :
  (∃ evs,
     TypeContext.handleResults Toy.items Toy.w0
       = Ok tt (mkWorld (mem Toy.w0) (trace Toy.w0 ++ evs)) ∧
     evs = TypeContextSpec.delivery (mem Toy.w0) <$> Toy.items ∧
     Forall2 (λ Item e, ∃ m Info,
                e = TypeContextInfoConsumer_handleResult m Info ∧
                m = <[fresh (dom (mem Toy.w0)) := typeContext_texts Item]> (mem Toy.w0) ∧
                Forall2 (TypeContextSpec.member_record (ide.ExpectedTy Item) m)
                  (ide.ImplicitMembers Item)
                  (SourceKit.TypeContextInfoItem.ImplicitMembers Info))
       Toy.items evs) ∧
  (∃ m SKResult,
     ConformingMethods.handleResult Toy.result Toy.w0
       = Ok tt (mkWorld (mem Toy.w0)
                  (trace Toy.w0 ++ [ConformingMethodListConsumer_handleResult m SKResult])) ∧
     m = <[fresh (dom (mem Toy.w0)) := conformingMethods_result_texts Toy.result]>
           (mem Toy.w0) ∧
     Forall2 (ConformingMethodsSpec.member_record Toy.result m)
       (ide.Members Toy.result)
       (SourceKit.ConformingMethodListResult.Members SKResult)).
Proof.
  split.
  - apply (proj1 (@members_follow_emission_order Toy.toy_AST Toy.toy_Frontend)
             Toy.items Toy.w0).
    repeat constructor; by vm_compute.
  - eapply (proj2 (@members_follow_emission_order Toy.toy_AST Toy.toy_Frontend)
              Toy.result _ Toy.w0); [vm_compute; reflexivity | by vm_compute].
Defined.

(** The order of two items without members is seen by the consumer: the
    lengths of the type-name views it is handed, call after call. *)
Example toy_order_is_observed :
  let lengths (tr : list Event) :=
    omap (λ e, match e with
               | TypeContextInfoConsumer_handleResult _ Info =>
                   Some (Length (SourceKit.TypeContextInfoItem.TypeName Info))
               | _ => None
               end) tr in
  lengths (trace (world_of (TypeContext.handleResults
                              [Toy.long_item 2; Toy.long_item 1] Toy.w0))) = [2; 1] ∧
  lengths (trace (world_of (TypeContext.handleResults
                              [Toy.long_item 1; Toy.long_item 2] Toy.w0))) = [1; 2].
Proof. by vm_compute. Qed.

(** Without arguments the small engine's invocation has no input file. *)
Lemma no_input_files_fails_witness :
  consumer_calls
    (trace (world_of (TypeContext.getExpressionContextInfo "a.swift"%string 3 []
                        None Toy.w0)))
  = [Consumer_failed "no input filenames specified"] ∧
  consumer_calls
    (trace (world_of (ConformingMethods.getConformingMethodList "a.swift"%string 3 []
                        ["P"%string] None Toy.w0)))
  = [Consumer_failed "no input filenames specified"].
Proof.
  split.
  - apply (proj1 (@no_input_files_fails Toy.toy_AST Toy.toy_Frontend
                    "a.swift"%string 3 [] ["P"%string] None ∅ [] eq_refl)).
    apply (In_lookup _ 0%nat). by vm_compute.
  - apply (proj2 (@no_input_files_fails Toy.toy_AST Toy.toy_Frontend
                    "a.swift"%string 3 [] ["P"%string] None ∅ [] eq_refl)).
    apply (In_lookup _ 0%nat). by vm_compute.
Defined.

(** At offset 3 the small engine's instance has no parser state: the parse
    pass is run, then the second pass.  At offset 0 it has: the second pass
    alone is run. *)
Lemma parse_only_without_parser_state_witness :
  (let tr := trace (world_of (TypeContext.getExpressionContextInfo "a.swift"%string 3
                                ["a.swift"%string] None Toy.w0)) in
   List.filter is_parse tr = [performParseAndResolveImportsOnly_called false] ∧
   List.filter is_secondPass tr = [performCodeCompletionSecondPass_called tt]) ∧
  (let tr := trace (world_of (ConformingMethods.getConformingMethodList "a.swift"%string 0
                                ["a.swift"%string] ["P"%string] None Toy.w0)) in
   List.filter is_parse tr = [] ∧
   List.filter is_secondPass tr = [performCodeCompletionSecondPass_called tt]).
Proof.
  split.
  - apply (proj1 (proj1 (@parse_only_without_parser_state Toy.toy_AST Toy.toy_Frontend
                           "a.swift"%string 3 ["a.swift"%string] ["P"%string] None ∅))
             false).
    apply (In_lookup _ 1%nat). by vm_compute.
  - apply (proj1 (proj2 (@parse_only_without_parser_state Toy.toy_AST Toy.toy_Frontend
                           "a.swift"%string 0 ["a.swift"%string] ["P"%string] None ∅))
             true).
    apply (In_lookup _ 1%nat). by vm_compute.
Defined.

(** C9 fails as stated: were the arena moved into the result, a consumer
    that kept the item it was handed could read it after the call; the type
    name of [Toy.item] cannot be read from the memory [handleSingleResult]
    leaves. *)
Lemma result_does_not_own_the_arena :
  ¬ TypeContextSpec.result_outlives_call Toy.item Toy.w0.
Proof.
  intros Hkept. unfold TypeContextSpec.result_outlives_call in Hkept.
  rewrite TypeContextFacts.handleSingleResult_run in Hkept.
  cbn [world_of trace mem] in Hkept.
  specialize (Hkept _ _ (or_introl eq_refl)). by vm_compute in Hkept.
Qed.

(** The arenas of the same item and result: alive and complete during the
    consumer call, every view inside and readable; gone when the calls
    return, every view dangling. *)
Lemma arena_is_borrowed_for_the_call_witness :
  (∃ b during Info,
     TypeContext.handleSingleResult Toy.item Toy.w0
       = Ok tt (mkWorld (mem Toy.w0)
                  (trace Toy.w0 ++ [TypeContextInfoConsumer_handleResult during Info])) ∧
     mem Toy.w0 !! b = None ∧
     during = <[b := typeContext_texts Toy.item]> (mem Toy.w0) ∧
     Forall (λ r, Base r = b ∧
                  in_bounds (Z.of_nat (length (typeContext_texts Toy.item))) r ∧
                  is_Some (str during r) ∧
                  str (mem Toy.w0) r = None)
       (TypeContextSpec.views Info)) ∧
  (∃ b during SKResult,
     ConformingMethods.handleResult Toy.result Toy.w0
       = Ok tt (mkWorld (mem Toy.w0)
                  (trace Toy.w0 ++ [ConformingMethodListConsumer_handleResult
                                      during SKResult])) ∧
     mem Toy.w0 !! b = None ∧
     during = <[b := conformingMethods_result_texts Toy.result]> (mem Toy.w0) ∧
     Forall (λ r, Base r = b ∧
                  in_bounds (Z.of_nat (length (conformingMethods_result_texts Toy.result))) r ∧
                  is_Some (str during r) ∧
                  str (mem Toy.w0) r = None)
       (ConformingMethodsSpec.views SKResult)).
Proof.
  split.
  - destruct (proj1 (@arena_is_borrowed_for_the_call Toy.toy_AST Toy.toy_Frontend)
                Toy.item Toy.w0)
      as (b & during & Info & Hrun & Hdead & Hduring & Hbase & Halive & Hgone).
    exists b, during, Info. split_and!; [done..|].
    assert (fits_size_t (typeContext_texts Toy.item)) as Hfit by (by vm_compute).
    apply Forall_forall. intros r Hr.
    destruct (proj1 (Forall_forall _ _) (Halive Hfit) r Hr) as [Hin Hread].
    split_and!; [|done|done|].
    + exact (proj1 (Forall_forall _ _) Hbase r Hr).
    + exact (proj1 (Forall_forall _ _) Hgone r Hr).
  - destruct (proj2 (@arena_is_borrowed_for_the_call Toy.toy_AST Toy.toy_Frontend)
                Toy.result Toy.w0)
      as (b & during & SKResult & Hrun & Hdead & Hduring & Hbase & Halive & Hgone).
    { repeat constructor. exists (Toy.TInt, Toy.TArray Toy.TInt), Toy.repeated.
      by vm_compute. }
    exists b, during, SKResult. split_and!; [done..|].
    assert (fits_size_t (conformingMethods_result_texts Toy.result)) as Hfit
      by (by vm_compute).
    apply Forall_forall. intros r Hr.
    destruct (proj1 (Forall_forall _ _) (Halive Hfit) r Hr) as [Hin Hread].
    split_and!; [|done|done|].
    + exact (proj1 (Forall_forall _ _) Hbase r Hr).
    + exact (proj1 (Forall_forall _ _) Hgone r Hr).
Defined.

(** [Toy.result] has a method only; [Toy.not_a_method] also has the
    property [zero], at which [cast<FuncDecl>] fails. *)
Lemma casts_need_methods_witness :
  (∃ m SKResult,
     ConformingMethods.handleResult Toy.result Toy.w0
       = Ok tt (mkWorld (mem Toy.w0)
                  (trace Toy.w0 ++ [ConformingMethodListConsumer_handleResult m SKResult]))) ∧
  (returned (ConformingMethods.handleResult Toy.not_a_method Toy.w0) = false ∧
   trace (world_of (ConformingMethods.handleResult Toy.not_a_method Toy.w0))
     = trace Toy.w0).
Proof.
  split.
  - apply (proj1 (@casts_need_methods Toy.toy_AST Toy.toy_Frontend Toy.result Toy.w0)).
    repeat constructor. exists (Toy.TInt, Toy.TArray Toy.TInt), Toy.repeated.
    by vm_compute.
  - apply (proj2 (@casts_need_methods Toy.toy_AST Toy.toy_Frontend
                    Toy.not_a_method Toy.w0)).
    intros Hall. apply Forall_cons_1 in Hall as [_ Hall].
    apply Forall_cons_1 in Hall as [(FT & FD & Hcast & _) _].
    by vm_compute in Hcast.
Defined.

End OnToy.

(** ** The paths of a request on the small engine *)

Module OnToyPaths.
Import Toy.

(** The options [false] give no file system. *)
Lemma no_file_system_only_fails_witness :
  TypeContext.getExpressionContextInfo "a.swift"%string 3 ["a.swift"%string]
    (Some false) w0
    = Ok tt (mkWorld (mem w0)
               (trace w0 ++ [Consumer_failed "cannot make the file system"])) ∧
  ConformingMethods.getConformingMethodList "a.swift"%string 3 ["a.swift"%string]
    ["P"%string] (Some false) w0
    = Ok tt (mkWorld (mem w0)
               (trace w0 ++ [Consumer_failed "cannot make the file system"])).
Proof.
  apply (@no_file_system_only_fails toy_AST toy_Frontend). reflexivity.
Defined.

(** The argument ["-invalid"] makes [initCompilerInvocation] fail. *)
Lemma invocation_failure_reports_its_error_witness :
  TypeContext.getExpressionContextInfo "a.swift"%string 3 ["-invalid"%string]
    None w0
    = Ok tt (mkWorld (mem w0)
               (trace w0 ++ [initCompilerInvocation_returned true [];
                             Consumer_failed "unknown argument"])) ∧
  ConformingMethods.getConformingMethodList "a.swift"%string 3 ["-invalid"%string]
    ["P"%string] None w0
    = Ok tt (mkWorld (mem w0)
               (trace w0 ++ [initCompilerInvocation_returned true [];
                             Consumer_failed "unknown argument"])).
Proof.
  apply (@invocation_failure_reports_its_error toy_AST toy_Frontend
           "a.swift"%string 3 ["-invalid"%string] ["P"%string] None w0 tt ""%string).
  - reflexivity.
  - by vm_compute.
Defined.

(** The input ["link.swift"], ten bytes long, is asked for at the offset
    4294967295, the largest an [unsigned] holds.  The real path of the input
    is ["real.swift"], which names the completion buffer, and the offset is
    moved to 10, the end of the input; no instance can be had there, and the
    message names the buffer that was asked for.  At the caller's own offset
    the small engine would have given an instance. *)
Lemma missing_instance_reports_its_error_witness :
  (TypeContext.getExpressionContextInfo "link.swift"%string 4294967295
     ["link.swift"%string] None w0
   = Ok tt (mkWorld (mem w0)
              (trace w0 ++ [initCompilerInvocation_returned false ["link.swift"%string];
                            getCompilerInstance_returned None;
                            Consumer_failed
                              "nothing to complete at the end of real.swift"])) ∧
   ConformingMethods.getConformingMethodList "link.swift"%string 4294967295
     ["link.swift"%string] ["P"%string] None w0
   = Ok tt (mkWorld (mem w0)
              (trace w0 ++ [initCompilerInvocation_returned false ["link.swift"%string];
                            getCompilerInstance_returned None;
                            Consumer_failed
                              "nothing to complete at the end of real.swift"]))) ∧
  0 ≤ 4294967295 < 2 ^ unsigned_bits ∧
  completion_buffer tt "link.swift"%string 4294967295 = ("real.swift"%string, 10) ∧
  getCompilerInstance ["link.swift"%string] tt "real.swift"%string 4294967295 ""
  = (Some false, ""%string).
Proof.
  split; [|by vm_compute].
  apply (@missing_instance_reports_its_error toy_AST toy_Frontend
           "link.swift"%string 4294967295 ["link.swift"%string] ["P"%string] None w0 tt
           ""%string ["link.swift"%string] ""%string
           "nothing to complete at the end of real.swift"%string).
  - reflexivity.
  - by vm_compute.
  - by vm_compute.
  - by vm_compute.
Defined.

(** Two failed requests, at offsets an [unsigned] holds: the type-context
    request above, for which no instance could be had, and a
    conforming-method request whose arguments are refused.  Neither used an
    instance. *)
Lemma failure_means_no_instance_was_used_witness :
  (let tr := trace (world_of (TypeContext.getExpressionContextInfo "link.swift"%string
                                4294967295 ["link.swift"%string] None w0)) in
   In (Consumer_failed "nothing to complete at the end of real.swift") tr ∧
   List.filter is_parse tr = [] ∧ List.filter is_secondPass tr = [] ∧
   ¬ In removeDiagnosticConsumer_called tr ∧
   ∀ CI, ¬ In (getCompilerInstance_returned (Some CI)) tr) ∧
  (let tr := trace (world_of (ConformingMethods.getConformingMethodList "a.swift"%string
                                3 ["-invalid"%string] ["P"%string] None w0)) in
   In (Consumer_failed "unknown argument") tr ∧
   List.filter is_parse tr = [] ∧ List.filter is_secondPass tr = [] ∧
   ¬ In removeDiagnosticConsumer_called tr ∧
   ∀ CI, ¬ In (getCompilerInstance_returned (Some CI)) tr).
Proof.
  assert (∀ (tr : list Event) (k : nat) e, tr !! k = Some e → In e tr) as Hin
    by (intros tr k e Hk; apply list_elem_of_In; by eapply list_elem_of_lookup_2).
  split.
  - assert (In (Consumer_failed "nothing to complete at the end of real.swift")
              (trace (world_of (TypeContext.getExpressionContextInfo "link.swift"%string
                                  4294967295 ["link.swift"%string] None w0))))
      as Hfailed by (apply (Hin _ 2%nat); by vm_compute).
    split; [exact Hfailed|].
    exact (proj1 (@failure_means_no_instance_was_used toy_AST toy_Frontend
                    "link.swift"%string 4294967295 ["link.swift"%string] ["P"%string]
                    None ∅ "nothing to complete at the end of real.swift"%string)
             Hfailed).
  - assert (In (Consumer_failed "unknown argument")
              (trace (world_of (ConformingMethods.getConformingMethodList
                                  "a.swift"%string 3 ["-invalid"%string] ["P"%string]
                                  None w0))))
      as Hfailed by (apply (Hin _ 1%nat); by vm_compute).
    split; [exact Hfailed|].
    exact (proj2 (@failure_means_no_instance_was_used toy_AST toy_Frontend
                    "a.swift"%string 3 ["-invalid"%string] ["P"%string]
                    None ∅ "unknown argument"%string)
             Hfailed).
Defined.

(** The small engine's two items are handed over, in order, between the
    second pass and the removal of the diagnostic consumer. *)
Lemma typeContext_request_delivers_every_item_witness :
  TypeContext.getExpressionContextInfo "a.swift"%string 3 ["a.swift"%string] None
    (mkWorld ∅ [])
  = Ok tt (mkWorld ∅
             (completed_trace ["a.swift"%string] false
                (typeContextInfoSecondPass (state_for_second_pass false)
                   ≫= fmap (TypeContextSpec.delivery ∅))
                [removeDiagnosticConsumer_called])).
Proof.
  apply (@typeContext_request_delivers_every_item toy_AST toy_Frontend
           "a.swift"%string 3 ["a.swift"%string] None ∅ tt ""%string
           ["a.swift"%string] ""%string false ""%string).
  - reflexivity.
  - by vm_compute.
  - by vm_compute.
  - by vm_compute.
Defined.

(** The arena of [Toy.result] and the brief documentation of its method. *)
Lemma arena_is_the_printed_texts_witness :
  ∃ b SKResult,
    ConformingMethods.handleResult result w0
      = Ok tt (mkWorld (mem w0)
                 (trace w0 ++
                  [ConformingMethodListConsumer_handleResult
                     (<[b := Type_print (ide.ExprType result) ++
                             printTypeUSR (ide.ExprType result) ++
                             conformingMethods_texts result (ide.Members result)]>
                        (mem w0))
                     SKResult])) ∧
    SourceKit.ConformingMethodListResult.DocBrief <$>
      SourceKit.ConformingMethodListResult.Members SKResult
    = resolveDocBrief <$> ide.Members result.
Proof.
  eapply (proj2 (@arena_is_the_printed_texts toy_AST toy_Frontend) result _ w0).
  vm_compute. reflexivity.
Defined.

(** The eleven views of [Toy.item] cover its arena of 74 bytes. *)
Lemma views_tile_the_arena_witness :
  ∃ b arena Info,
    TypeContext.handleSingleResult item w0
      = Ok tt (mkWorld (mem w0)
                 (trace w0 ++ [TypeContextInfoConsumer_handleResult
                                 (<[b := arena]> (mem w0)) Info])) ∧
    tiled 0 (TypeContextSpec.views Info) (Z.of_nat (length arena)).
Proof.
  apply (proj1 (@views_tile_the_arena toy_AST toy_Frontend) item w0);
    by vm_compute.
Defined.

(** The type name of [Toy.item], three bytes long, is read whole through a
    view at offset 0. *)
Lemma type_name_view_reads_a_prefix_witness :
  ∃ b arena Info,
    TypeContext.handleSingleResult item w0
      = Ok tt (mkWorld (mem w0)
                 (trace w0 ++ [TypeContextInfoConsumer_handleResult
                                 (<[b := arena]> (mem w0)) Info])) ∧
    bytes "Int" `prefix_of` arena ∧
    SourceKit.TypeContextInfoItem.TypeName Info = mkStringRef b 0 3 ∧
    str (<[b := arena]> (mem w0)) (SourceKit.TypeContextInfoItem.TypeName Info)
    = Some (bytes "Int").
Proof.
  apply (proj1 (@type_name_view_reads_a_prefix toy_AST toy_Frontend) item w0).
  by vm_compute.
Defined.

End OnToyPaths.

Module OnToyWithAProperty.
#[local] Existing Instance Toy.toy_AST.
#[local] Existing Instance toy_Frontend_with_a_property.

(** With the second pass that emits a result, a result with a property,
    and a result: the first is handed over, the request stops at the second
    and the third is never looked at. *)
Lemma conformingMethods_request_delivers_until_a_cast_fails_witness :
  let Rs := [Toy.result; Toy.not_a_method; Toy.result] in
  let run := ConformingMethods.getConformingMethodList "a.swift"%string 3
               ["a.swift"%string] ["P"%string] None (mkWorld ∅ []) in
  (∃ (n : nat) evs,
     Forall2 (conformingMethods_delivery ∅) (take n Rs) evs ∧
     ((n = length Rs ∧
       run = Ok tt (mkWorld ∅ (completed_trace ["a.swift"%string] false evs
                                 [removeDiagnosticConsumer_called]))) ∨
      (∃ Result,
         Rs !! n = Some Result ∧
         ¬ ConformingMethodsSpec.members_are_methods Result ∧
         returned run = false ∧
         trace (world_of run) = completed_trace ["a.swift"%string] false evs []))) ∧
  returned run = false ∧
  length (List.filter is_handleResult (trace (world_of run))) = 1%nat.
Proof.
  split; [|by vm_compute].
  apply (@conformingMethods_request_delivers_until_a_cast_fails Toy.toy_AST
           toy_Frontend_with_a_property "a.swift"%string 3 ["a.swift"%string]
           ["P"%string] None ∅ tt ""%string ["a.swift"%string] ""%string false
           ""%string).
  - reflexivity.
  - by vm_compute.
  - by vm_compute.
  - by vm_compute.
Defined.

End OnToyWithAProperty.
